(** * Pleco: the crawl engine of [src/index.js] and of the daemon client

    Two programs are embedded here:
    - [Index]: the Beaker command of [src/index.js] ([pleco], [CrawlQueue],
      [scrapeHyperAddresses], [extractKey], [filterScrapable], [filterMounts]);
    - [Cli]: the daemon client of [src/unnamed/part_000] ([main],
      [exhaustInput], [exhaustQueue], [crawlHttp], [crawlHyper], [addQueue],
      [extractKey], [scrapeURIs]).

    A JavaScript string is the list of its UTF-16 code units; regular
    expression literals are terms of [regex], run by a small backtracking
    matcher on positions of the input. A positional argument of the daemon
    client is a string or a Number, as the argument parser leaves it. *)

From Stdlib Require Import String Ascii NArith.
From stdpp Require Import base list gmap sets.

Local Open Scope N_scope.
Local Open Scope nat_scope.
Local Set Warnings "-clear-no-such-hyp".

(** ** Strings *)

(** A code unit, and a string as the sequence of its code units. *)
Abbreviation Str := (list N).

(** The code units of a literal (all literals of the sources are ASCII). *)
Definition js (s : string) : Str := map N_of_ascii (list_ascii_of_string s).

(** [s.slice(a, b)] for [0 <= a <= b]: the code units at positions [a..b-1]
    that exist. *)
Definition slice (a b : nat) (s : Str) : Str := take (b - a) (drop a s).

(** [n] copies of the one-unit string [c]. *)
Definition repeatStr (c : string) (n : nat) : Str := mjoin (replicate n (js c)).

(** ** Regular expressions *)

Inductive regex : Type :=
| Eps                                 (* empty pattern *)
| Chr (c : N)                         (* a literal code unit *)
| Class (ranges : list (N * N))       (* [a-b...] *)
| Dot                                 (* . *)
| Bol                                 (* ^ (no m flag) *)
| Eol                                 (* $ (no m flag) *)
| Seq (r1 r2 : regex)
| Alt (r1 r2 : regex)                 (* r1|r2 *)
| Opt (r : regex)                     (* r? (greedy) *)
| Rep (n : nat) (r : regex).          (* r{n} *)

(** A literal run of characters. *)
Definition LitStr (l : Str) : regex := foldr (λ c r, Seq (Chr c) r) Eps l.
Definition Lit (s : string) : regex := LitStr (js s).

Definition inRanges (ranges : list (N * N)) (x : N) : bool :=
  existsb (λ '(lo, hi), N.leb lo x && N.leb x hi) ranges.

(** The line terminators, which [.] does not match: LF, CR, U+2028, U+2029. *)
Definition lineTerminator (x : N) : bool :=
  N.eqb x 10 || N.eqb x 13 || N.eqb x 8232 || N.eqb x 8233.

(** [run r inp i]: the positions at which a match of [r] that starts at
    position [i] of [inp] can end, in the order in which backtracking tries
    them. *)
Fixpoint run (r : regex) (inp : Str) (i : nat) : list nat :=
  match r with
  | Eps => [i]
  | Chr c =>
      match inp !! i with
      | Some x => if N.eqb x c then [S i] else []
      | None => []
      end
  | Class ranges =>
      match inp !! i with
      | Some x => if inRanges ranges x then [S i] else []
      | None => []
      end
  | Dot =>
      match inp !! i with
      | Some x => if lineTerminator x then [] else [S i]
      | None => []
      end
  | Bol => if Nat.eqb i 0 then [i] else []
  | Eol => if Nat.eqb i (length inp) then [i] else []
  | Seq r1 r2 => flat_map (run r2 inp) (run r1 inp i)
  | Alt r1 r2 => run r1 inp i ++ run r2 inp i
  | Opt r => run r inp i ++ [i]
  | Rep n r => Nat.iter n (flat_map (run r inp)) [i]
  end.

(** The first match at one of the [n] start positions [i], [i+1], ...:
    its start and its end. *)
Fixpoint searchFrom (r : regex) (inp : Str) (n i : nat) : option (nat * nat) :=
  match n with
  | O => None
  | S n' =>
      match run r inp i with
      | e :: _ => Some (i, e)
      | [] => searchFrom r inp n' (S i)
      end
  end.

(** The first match starting at [lastIndex] or later; start positions run up
    to the end of the input. *)
Definition exec (r : regex) (inp : Str) (lastIndex : nat) : option (nat * nat) :=
  searchFrom r inp (S (length inp) - lastIndex) lastIndex.

(** [s.match(r)] for [r] without the [g] flag, as a condition: an array is
    truthy, [null] is not. *)
Definition matches (r : regex) (s : Str) : bool :=
  match exec r s 0 with Some _ => true | None => false end.

(** The loop of [s.match(r)] for [r] with the [g] flag: [exec] from
    [lastIndex], which then moves to the end of the match (one further after
    an empty match). [fuel] bounds the number of matches. *)
Fixpoint matchLoop (r : regex) (inp : Str) (fuel lastIndex : nat) : list Str :=
  match fuel with
  | O => []
  | S fuel' =>
      match exec r inp lastIndex with
      | None => []
      | Some (i, e) =>
          slice i e inp :: matchLoop r inp fuel' (if Nat.eqb e i then S e else e)
      end
  end.

(** [s.match(r)] for [r] with the [g] flag: every match, or [null]. *)
Definition matchG (r : regex) (s : Str) : option (list Str) :=
  match matchLoop r s (S (length s)) 0 with
  | [] => None
  | ms => Some ms
  end.

(** ** The regular expressions of the sources *)

Definition hexClass : regex := Class [(48, 57); (97, 102)]%N.   (* [0-9a-f] *)

(** [/^https?:/] *)
Definition HTTP_SCHEME : regex :=
  Seq Bol (Seq (Lit "http") (Seq (Opt (Chr 115)) (Chr 58))).
(** [/^hyper:/] *)
Definition HYPER_SCHEME : regex := Seq Bol (Lit "hyper:").
(** [/^[0-9a-f]{64}$/] *)
Definition ED25519_KEY : regex := Seq Bol (Seq (Rep 64 hexClass) Eol).
(** [/hyper:\/\/[0-9a-f]{64}/g] *)
Definition HYPER_URI_SCRAPER : regex := Seq (Lit "hyper://") (Rep 64 hexClass).
(** [/\.(html?|md|json|xml|js|css)$/] of the daemon client *)
Definition SCRAPABLE_EXTS : regex :=
  Seq (Chr 46)
    (Seq (Alt (Seq (Lit "htm") (Opt (Chr 108)))
         (Alt (Lit "md") (Alt (Lit "json") (Alt (Lit "xml") (Alt (Lit "js") (Lit "css"))))))
       Eol).
(** [/\.(html?|md|xml|js(on)?|css)$/] of [index.js] *)
Definition SCRAPABLE_EXTS_INDEX : regex :=
  Seq (Chr 46)
    (Seq (Alt (Seq (Lit "htm") (Opt (Chr 108)))
         (Alt (Lit "md") (Alt (Lit "xml") (Alt (Seq (Lit "js") (Opt (Lit "on"))) (Lit "css")))))
       Eol).
(** [/(^|\/)(node_modules|.git)/] of [index.js]; the dot is not escaped. *)
Definition IGNORED_DIRS : regex :=
  Seq (Alt Bol (Chr 47)) (Alt (Lit "node_modules") (Seq Dot (Lit "git"))).

(** A hypercore key as the sources hold it: a string, or [null]. *)
Abbreviation Key := (list N).

(** [Array.prototype.pop]: the last element and the array without it;
    [None] on the empty array. *)
Definition pop {A} (l : list A) : option (A * list A) :=
  match reverse l with
  | [] => None
  | x :: r => Some (x, reverse r)
  end.

(** ** Functions that the two sources share word for word *)

(** [extractKey(uri)]; [index.js] writes the two regular expressions in
    place, the daemon client names them [HYPER_SCHEME] and [ED25519_KEY]. *)
Definition extractKey (uri : Str) : option Key :=
  let key := if matches HYPER_SCHEME uri then slice 8 72 uri else slice 0 64 uri in
  if matches ED25519_KEY key then Some key else None.

(** One turn of the loop [for (const uri of uriList)] of [CrawlQueue.add]
    and of [addQueue], on the queue array, the set of crawled keys and
    [count]. [push] appends at the end of the array. *)
Definition addStep (st : list Key * gset Key * nat) (uri : Str)
  : list Key * gset Key * nat :=
  let '(queue, crawled, count) := st in
  match extractKey uri with
  | None => st
  | Some key =>
      if bool_decide (key ∈ queue) then st
      else if bool_decide (key ∈ crawled) then st
      else (queue ++ [key], crawled, S count)
  end.

Definition addLoop (uriList : list Str) (st : list Key * gset Key * nat)
  : list Key * gset Key * nat :=
  foldl addStep st uriList.

Arguments extractKey : simpl never.
Arguments matches : simpl never.
Arguments addLoop : simpl never.

(** ** Drives, as the accessor of either program shows them *)

(** Every operation is one awaited call; [None] is a rejected promise. *)
Record Drive := {
  readdir : option (list Str);               (* readdir() *)
  readdirRecursive : option (list Str);      (* readdir("/", { recursive: true }) *)
  readFile : Str → option Str;               (* readFile(path) *)
  stat : Str → option (option Str);          (* stat(path).mount, then its key *)
  mountDrive : Str → Str → bool              (* mount(key, path) resolved? *)
}.

(** ** [src/index.js] *)
Module Index.

Record Options := { version : bool; mount : bool }.

(** [beaker.hyperdrive.drive(url)]. A run reads the drives as they are
    when it starts: mounting into the index drive does not change what
    the accessor answers. *)
Definition Accessor := Str → option Drive.

(** [scrapeHyperAddresses(text)] *)
Definition scrapeHyperAddresses (text : Str) : list Str :=
  default [] (matchG HYPER_URI_SCRAPER text).

(** [filterScrapable(entries)] *)
Definition filterScrapable (entries : list Str) : list Str :=
  List.filter (λ entry, matches SCRAPABLE_EXTS_INDEX entry)
    (List.filter (λ entry, negb (matches IGNORED_DIRS entry)) entries).

(** [filterMounts(drive, entries)] *)
Definition filterMounts (drive : Drive) (entries : list Str) : list Str :=
  foldl (λ mounts entry,
           match stat drive (js "/" ++ entry) with
           | Some (Some key) => mounts ++ [key]
           | Some None => mounts
           | None => mounts
           end) [] entries.

(** [class CrawlQueue] *)
Record CrawlQueue := { crawlSet : gset Key; queue : list Key }.

Definition newCrawlQueue : CrawlQueue := {| crawlSet := ∅; queue := [] |}.

(** One turn of the generator [*[Symbol.iterator]]: [None] when the loop
    condition fails, else the key that is yielded and the queue as it is
    while the consumer holds that key. *)
Definition next (this : CrawlQueue) : option (Key * CrawlQueue) :=
  match pop (queue this) with
  | None => None
  | Some (key, rest) =>
      Some (key, {| crawlSet := {[key]} ∪ crawlSet this; queue := rest |})
  end.

(** [get size()] and [get crawled()] *)
Definition size (this : CrawlQueue) : nat := length (queue this).
Definition crawled (this : CrawlQueue) : nat := base.size (crawlSet this).

(** [add(...uriList)]: the count returned and the queue afterwards. *)
Definition add (this : CrawlQueue) (uriList : list Str) : nat * CrawlQueue :=
  let '(q, c, count) := addLoop uriList (queue this, crawlSet this, 0) in
  (count, {| crawlSet := c; queue := q |}).

(** The loop over [targets] of [pleco], each turn in its own [try]. *)
Definition scrapeTargets (drive : Drive) (targets : list Str) (q : CrawlQueue)
  : CrawlQueue :=
  foldl (λ q target,
           match readFile drive target with
           | Some text => (add q (scrapeHyperAddresses text)).2
           | None => q
           end) q targets.

(** The [try] block commented [// Crawl]. *)
Definition crawl (world : Accessor) (key : Key) (q : CrawlQueue) : CrawlQueue :=
  match world key with
  | None => q
  | Some drive =>
      match readdirRecursive drive with
      | None => q
      | Some entries =>
          let q1 := scrapeTargets drive (filterScrapable entries) q in
          let mounts := filterMounts drive entries in
          (add q1 mounts).2
      end
  end.

(** The block commented [// Index]: the new value of [mounted]. *)
Definition mountStep (options : Options) (indexDrive : Drive) (indexMounts : list Str)
           (key : Key) (mounted : nat) : nat :=
  if mount options && negb (bool_decide (key ∈ indexMounts)) then
    if mountDrive indexDrive key key then S mounted else mounted
  else mounted.

(** The loop [for (const key of queue)]: the keys in the order in which
    they are put out, the queue and [mounted] when the loop ends. [None]
    when [fuel] turns were not enough. *)
Fixpoint exhaust (fuel : nat) (world : Accessor) (options : Options)
         (indexDrive : Drive) (indexMounts : list Str)
         (q : CrawlQueue) (mounted : nat) : option (list Key * CrawlQueue * nat) :=
  match fuel with
  | O => None
  | S fuel' =>
      match next q with
      | None => Some ([], q, mounted)
      | Some (key, q1) =>
          let mounted1 := mountStep options indexDrive indexMounts key mounted in
          let q2 := crawl world key q1 in
          match exhaust fuel' world options indexDrive indexMounts q2 mounted1 with
          | Some (keys, qn, m) => Some (key :: keys, qn, m)
          | None => None
          end
      end
  end.

Inductive Outcome :=
| PrintedVersion
| Rejected                                        (* an await outside every try threw *)
| Finished (keys : list Key) (q : CrawlQueue) (mounted : nat).

(** [pleco(options)], with [cwd] the value of [this.env.resolve(".")]. *)
Definition pleco (fuel : nat) (world : Accessor) (cwd : Str) (options : Options)
  : option Outcome :=
  if version options then Some PrintedVersion
  else
    match world cwd with
    | None => Some Rejected
    | Some indexDrive =>
        match readdir indexDrive with
        | None => Some Rejected
        | Some top =>
            let indexMounts := filterMounts indexDrive top in
            let q := (add newCrawlQueue [cwd]).2 in
            match exhaust fuel world options indexDrive indexMounts q 0 with
            | Some (keys, qn, m) => Some (Finished keys qn m)
            | None => None
            end
        end
    end.

End Index.

(** ** [src/unnamed/part_000], the daemon client *)
Module Cli.

(** What the program reaches outside: [fetch(url)] followed by
    [response.text()], and [client.drive.get({ key })]. *)
Record Client := {
  fetch : Str → option Str;
  driveGet : Key → option Drive
}.

(** The working memory: the globals [crawled] and [queue]. *)
Record Memory := { crawled : gset Key; queue : list Key }.

Definition emptyMemory : Memory := {| crawled := ∅; queue := [] |}.

(** An element of [argv._]. The option [string] of the call of [minimist]
    does not list [_], so an argument that reads as a number is stored as a
    Number and any other as a string. The value of a Number is never read:
    the first thing done with an argument is the call of its method [match],
    which a Number has not. *)
Inductive Arg := ArgString (uri : Str) | ArgNumber.

(** How a routine that works on the memory ends: it returns, or it throws;
    either way the memory is as the routine has left it. *)
Inductive Completion := Returns (m : Memory) | Throws (m : Memory).

Definition memoryOf (c : Completion) : Memory :=
  match c with Returns m | Throws m => m end.

(** How [main] ends: the promise is rejected and the handler given to
    [catch] ends the process, or [main] returns after the crawl of [keys],
    in this order. *)
Inductive Outcome :=
| Aborted (m : Memory)
| Finished (keys : list Key) (m : Memory).

(** [scrapeURIs(text)] *)
Definition scrapeURIs (text : Str) : list Str :=
  default [] (matchG HYPER_URI_SCRAPER text).

(** [addQueue(...uriList)]: the count returned and the memory afterwards. *)
Definition addQueue (m : Memory) (uriList : list Str) : nat * Memory :=
  let '(q, c, count) := addLoop uriList (queue m, crawled m, 0) in
  (count, {| crawled := c; queue := q |}).

(** The loop over [entries] of [crawlHyper], each turn in its own [try]. *)
Definition scrapeEntries (drive : Drive) (entries : list Str) (m : Memory) : Memory :=
  foldl (λ m entry,
           match readFile drive entry with
           | Some text => (addQueue m (scrapeURIs text)).2
           | None => m
           end) m entries.

(** [crawlHyper(key)]: the [try] block, then the [finally] block. *)
Definition crawlHyper (client : Client) (key : Key) (m : Memory) : Memory :=
  let m1 :=
    match driveGet client key with
    | None => m
    | Some drive =>
        match readdirRecursive drive with
        | None => m
        | Some all =>
            let entries := List.filter (λ entry, matches SCRAPABLE_EXTS entry) all in
            scrapeEntries drive entries m
        end
    end in
  {| crawled := {[key]} ∪ crawled m1; queue := queue m1 |}.

(** [exhaustQueue()]: the keys handed to [crawlHyper], in order, and the
    memory when the loop ends. [None] when [fuel] turns were not enough. *)
Fixpoint exhaustQueue (fuel : nat) (client : Client) (m : Memory)
  : option (list Key * Memory) :=
  match fuel with
  | O => None
  | S fuel' =>
      match pop (queue m) with
      | None => Some ([], m)
      | Some (key, rest) =>
          let m1 := crawlHyper client key {| crawled := crawled m; queue := rest |} in
          match exhaustQueue fuel' client m1 with
          | Some (keys, mn) => Some (key :: keys, mn)
          | None => None
          end
      end
  end.

(** [crawlHttp(url)]; [None] when it throws. *)
Definition crawlHttp (client : Client) (url : Str) (m : Memory) : option Memory :=
  match fetch client url with
  | None => None
  | Some text => Some (addQueue m (scrapeURIs text)).2
  end.

(** One turn of the loop of [exhaustInput] at an argument that is a string:
    a rejection of [crawlHttp] is caught on the spot. *)
Definition inputStep (client : Client) (uri : Str) (m : Memory) : Memory :=
  if matches HTTP_SCHEME uri then
    match crawlHttp client uri m with
    | Some m' => m'
    | None => m
    end
  else if matches HYPER_SCHEME uri then (addQueue m [uri]).2
  else m.

(** [exhaustInput()], with [argv] the value of [argv._]. At a Number
    [uri.match] is not a function: the call throws outside every [try] and
    [catch] of the routine, and the arguments that follow are not read. *)
Fixpoint exhaustInput (client : Client) (argv : list Arg) (m : Memory) : Completion :=
  match argv with
  | [] => Returns m
  | ArgString uri :: rest => exhaustInput client rest (inputStep client uri m)
  | ArgNumber :: _ => Throws m
  end.

(** [client.ready().then(main).catch(...)], from the call of [main] on:
    [None] when [fuel] turns of [exhaustQueue] were not enough. When
    [exhaustInput] throws, [main] is left at once and [exhaustQueue] is not
    called. *)
Definition main (fuel : nat) (client : Client) (argv : list Arg) : option Outcome :=
  match exhaustInput client argv emptyMemory with
  | Throws m => Some (Aborted m)
  | Returns m =>
      match exhaustQueue fuel client m with
      | Some (keys, mn) => Some (Finished keys mn)
      | None => None
      end
  end.

End Cli.

(** * The vocabulary of the properties *)

(** ** Keys and addresses *)

(** The first [n] code units of [s] exist and lie in [ranges]. *)
Fixpoint allIn (ranges : list (N * N)) (n : nat) (s : Str) : bool :=
  match n, s with
  | O, _ => true
  | S n', x :: s' => inRanges ranges x && allIn ranges n' s'
  | S _, [] => false
  end.

(** [0-9] or [a-f]. *)
Definition isHex (x : N) : bool := inRanges [(48, 57); (97, 102)]%N x.

(** A key of the data model: 64 code units, each a lowercase hex digit. *)
Definition isKey (s : Str) : bool := Nat.eqb (length s) 64 && forallb isHex s.

(** An address: [hyper://] and then a key, 72 code units in all. *)
Definition isAddress (s : Str) : bool :=
  bool_decide (take 8 s = js "hyper://") && isKey (drop 8 s).

(** An address lies at position [i] of [text]. *)
Definition addressAt (text : Str) (i : nat) : bool :=
  isAddress (take 72 (drop i text)).

(** Every address of [text], from left to right. *)
Definition occurrencesFrom (text : Str) (last : nat) : list Str :=
  map (λ i, take 72 (drop i text))
      (List.filter (addressAt text) (seq last (length text - last))).

Definition occurrences (text : Str) : list Str := occurrencesFrom text 0.

(** ** Crawls *)

(** What the loop of [add] does to a queue [q] and a crawled set [c]: it
    appends a list [new] of keys, each of them named by [uriList] and in
    neither [q] nor [c], and every key that [uriList] names is then queued
    or was crawled. *)
Definition addsTo (uriList : list Str) (q : list Key) (c : gset Key) (new : list Key)
  : Prop :=
  NoDup new
  ∧ (∀ k, k ∈ new →
       (k ∉ q) ∧ (k ∉ c) ∧ ∃ uri, uri ∈ uriList ∧ extractKey uri = Some k)
  ∧ (∀ uri k, uri ∈ uriList → extractKey uri = Some k → (k ∈ q ++ new) ∨ (k ∈ c)).

(** The strings that the crawl of a drive hands to [add], in order. *)
Definition indexLinks (drive : Drive) : list Str :=
  match readdirRecursive drive with
  | None => []
  | Some entries =>
      flat_map (λ target, default [] (Index.scrapeHyperAddresses <$> readFile drive target))
               (Index.filterScrapable entries)
      ++ Index.filterMounts drive entries
  end.

Definition indexLinksOf (world : Index.Accessor) (key : Key) : list Str :=
  match world key with
  | None => []
  | Some drive => indexLinks drive
  end.

(** The frontier invariant: no key twice in [queue], none both in [queue]
    and in [crawlSet]. *)
Definition indexInv (q : Index.CrawlQueue) : Prop :=
  NoDup (Index.queue q) ∧ ∀ k, k ∈ Index.queue q → k ∉ Index.crawlSet q.

(** The strings that [crawlHyper] hands to [addQueue] for a drive, in order. *)
Definition cliLinks (drive : Drive) : list Str :=
  match readdirRecursive drive with
  | None => []
  | Some all =>
      flat_map (λ entry, default [] (Cli.scrapeURIs <$> readFile drive entry))
               (List.filter (λ entry, matches SCRAPABLE_EXTS entry) all)
  end.

Definition cliLinksOf (client : Cli.Client) (key : Key) : list Str :=
  match Cli.driveGet client key with
  | None => []
  | Some drive => cliLinks drive
  end.

(** The number of queued keys that are in the crawled set already. *)
Definition stale (c : gset Key) (q : list Key) : nat :=
  length (List.filter (λ k, bool_decide (k ∈ c)) q).

(** A finite drive graph: finitely many drives, each under its key. Any
    other key has no drive, and asking for one fails. *)
Definition accessorOf (drives : gmap Str Drive) : Index.Accessor :=
  λ key, drives !! key.

Definition clientOf (pages : Str → option Str) (drives : gmap Str Drive) : Cli.Client :=
  {| Cli.fetch := pages; Cli.driveGet := λ key, drives !! key |}.

Definition keysOf (links : list Str) : gset Key := list_to_set (omap extractKey links).

Definition reach (links : Drive → list Str) (drives : gmap Str Drive) : gset Key :=
  keysOf (flat_map links (snd <$> map_to_list drives)).

(** The strings [links] name the key [b] and no other key. *)
Definition namesJust (links : list Str) (b : Key) : Prop :=
  ∀ k, k ∈ keysOf links ↔ k = b.

(** How often [key] was handed to the crawl. *)
Definition crawls (key : Key) (keys : list Key) : nat :=
  length (List.filter (λ k, bool_decide (k = key)) keys).

(** ** Sample inputs *)

Definition keyA : Key := repeatStr "a" 64.
Definition keyB : Key := repeatStr "b" 64.
Definition keyUpper : Str := repeatStr "A" 64.

(** A drive with one page that names each of [targets]. *)
Definition linkPage (targets : list Key) : Drive :=
  {| readdir := Some [js "index.html"];
     readdirRecursive := Some [js "index.html"];
     readFile := λ path,
       if bool_decide (path = js "index.html")
       then Some (mjoin ((λ k, js "see hyper://" ++ k ++ js " ") <$> targets))
       else None;
     stat := λ _, Some None;
     mountDrive := λ _ _, false |}.


Definition cwdA : Str := js "hyper://" ++ keyA ++ js "/".

(** One drive whose page names the drive itself. *)
Definition selfGraph : gmap Str Drive :=
  list_to_map [(cwdA, linkPage [keyA]); (keyA, linkPage [keyA])].

(** Two drives, each naming the other. *)
Definition cycleGraph : gmap Str Drive :=
  list_to_map [(cwdA, linkPage [keyB]); (keyA, linkPage [keyB]); (keyB, linkPage [keyA])].


Definition noPages : Str → option Str := λ _, None.
Definition plain : Index.Options := {| Index.version := false; Index.mount := false |}.

(** [normalizeKey] in the words of the specification: if the reference
    starts with [hyper://], the 64 code units after it; else the first 64;
    then the check against the key pattern. *)
Definition normalizeKey (ref : Str) : option Key :=
  let candidate :=
    if bool_decide (take 8 ref = js "hyper://")
    then take 64 (drop 8 ref) else take 64 ref in
  if isKey candidate then Some candidate else None.

(** A reference that starts with [hyper:] but not with [hyper://]. *)
Definition oddReference : Str := js "hyper:xx" ++ keyA.

(** A drive with the three entries of the specification's last example:
    [a.html] names [keyA], [b.bin] is no text, [node_modules/c.js] names
    [keyB]. *)
Definition mixedDrive : Drive :=
  {| readdir := Some [js "a.html"; js "b.bin"; js "node_modules"];
     readdirRecursive := Some [js "a.html"; js "b.bin"; js "node_modules/c.js"];
     readFile := λ path,
       if bool_decide (path = js "a.html") then Some (js "hyper://" ++ keyA)
       else if bool_decide (path = js "node_modules/c.js") then Some (js "hyper://" ++ keyB)
       else None;
     stat := λ _, Some None;
     mountDrive := λ _ _, false |}.

(** What can be seen of a queue, of a memory and of an outcome: the
    crawled keys, in the order in which [elements] lists the set, and the
    queue. In the daemon client, of a routine that has returned and of a run
    that has finished. *)
Definition indexView (q : Index.CrawlQueue) : list Key * list Key :=
  (elements (Index.crawlSet q), Index.queue q).

Definition cliView (m : Cli.Memory) : list Key * list Key :=
  (elements (Cli.crawled m), Cli.queue m).

Definition outcomeView (o : option Index.Outcome)
  : option (list Key * (list Key * list Key) * nat) :=
  match o with
  | Some (Index.Finished keys q mounted) => Some (keys, indexView q, mounted)
  | _ => None
  end.

Definition inputView (c : Cli.Completion) : option (list Key * list Key) :=
  match c with
  | Cli.Returns m => Some (cliView m)
  | Cli.Throws _ => None
  end.

Definition runView (r : option Cli.Outcome)
  : option (list Key * (list Key * list Key)) :=
  match r with
  | Some (Cli.Finished keys m) => Some (keys, cliView m)
  | _ => None
  end.

(** Getting the drive of a key, or listing it, fails. *)
Definition listFails (drive : option Drive) : Prop :=
  match drive with
  | None => True
  | Some d => readdirRecursive d = None
  end.

(** ** Reachable keys, seeds and paths *)

(** The keys that can be reached from [seeds] when [links key] are the
    strings that the crawl of [key] hands to the queue. *)
Inductive reachable (links : Key → list Str) (seeds : list Key) : Key → Prop :=
| reachable_seed k : k ∈ seeds → reachable links seeds k
| reachable_link k k' :
    reachable links seeds k → k' ∈ keysOf (links k) → reachable links seeds k'.

(** The arguments that [exhaustInput] reads to the end of their turn: the
    strings before the first Number. *)
Fixpoint stringsOf (argv : list Cli.Arg) : list Str :=
  match argv with
  | Cli.ArgString uri :: rest => uri :: stringsOf rest
  | _ => []
  end.

(** The strings that [exhaustInput] hands to [addQueue], in order: the
    addresses scraped from a page that could be fetched, a [hyper:] URI
    itself, and nothing for any other string; nothing from the first
    Number on. *)
Definition seedLinks (client : Cli.Client) (argv : list Cli.Arg) : list Str :=
  flat_map (λ uri,
              if matches HTTP_SCHEME uri then
                default [] (Cli.scrapeURIs <$> Cli.fetch client uri)
              else if matches HYPER_SCHEME uri then [uri]
              else []) (stringsOf argv).

(** The extensions of the files that are scraped. *)
Definition scrapableExts : list Str :=
  js <$> [".html"; ".htm"; ".md"; ".xml"; ".json"; ".js"; ".css"]%string.

Definition hasScrapableExt (path : Str) : Prop :=
  ∃ ext, ext ∈ scrapableExts ∧ ext `suffix_of` path.

(** [t] begins with [node_modules], or with one code unit that is no line
    terminator and then [git]. *)
Definition startsIgnored (t : Str) : Prop :=
  js "node_modules" `prefix_of` t
  ∨ ∃ x rest, t = x :: js "git" ++ rest ∧ lineTerminator x = false.

(** The path itself, or what follows one of its slashes, begins so. *)
Definition ignoredPath (path : Str) : Prop :=
  startsIgnored path ∨ ∃ pre t, path = pre ++ js "/" ++ t ∧ startsIgnored t.

(** The strings of a pattern that is built from literals, [|] and [?]. *)
Fixpoint words (r : regex) : list Str :=
  match r with
  | Eps => [[]]
  | Chr c => [[c]]
  | Seq r1 r2 => w1 ← words r1; w2 ← words r2; [w1 ++ w2]
  | Alt r1 r2 => words r1 ++ words r2
  | Opt r1 => words r1 ++ [[]]
  | _ => []
  end.

Fixpoint literal (r : regex) : bool :=
  match r with
  | Eps | Chr _ => true
  | Seq r1 r2 | Alt r1 r2 => literal r1 && literal r2
  | Opt r1 => literal r1
  | _ => false
  end.

(** The mount keys of [entries], one for each entry whose [stat] succeeds
    and shows a mount. *)
Definition mountKeys (drive : Drive) (entries : list Str) : list Str :=
  omap (λ entry, mjoin (stat drive (js "/" ++ entry))) entries.

(** * Properties *)

(** Closed goals are settled by evaluation, conjunct by conjunct. *)
Ltac evaluate :=
  repeat match goal with |- _ ∧ _ => split end; vm_compute; reflexivity.

(** ** The matcher on the patterns of the sources *)

Lemma iter_flat_map_nil {A} (f : A → list A) n : Nat.iter n (flat_map f) [] = [].
Proof. induction n as [|n IH]; simpl; [done | by rewrite IH]. Qed.

Lemma drop_lookup_cons {A} (l : list A) i x :
  l !! i = Some x → drop i l = x :: drop (S i) l.
Proof.
  revert i; induction l as [|y l IH]; intros [|i] H; simplify_eq/=; auto.
Qed.

Lemma run_LitStr l inp i :
  run (LitStr l) inp i =
  if bool_decide (take (length l) (drop i inp) = l) then [i + length l] else [].
Proof.
  revert i; induction l as [|c l IH]; intros i; simpl.
  - by rewrite Nat.add_0_r.
  - destruct (inp !! i) as [x|] eqn:E.
    + rewrite (drop_lookup_cons _ _ _ E); simpl.
      destruct (N.eqb_spec x c) as [->|Hne]; simpl.
      * rewrite app_nil_r, IH.
        replace (S i + length l) with (i + S (length l)) by lia.
        destruct (decide (take (length l) (drop (S i) inp) = l)) as [Heq|Hneq].
        -- rewrite !bool_decide_eq_true_2; congruence.
        -- rewrite !bool_decide_eq_false_2; congruence.
      * rewrite bool_decide_eq_false_2; congruence.
    + by rewrite drop_ge by (by apply lookup_ge_None).
Qed.

Lemma run_Rep_Class ranges n inp i :
  run (Rep n (Class ranges)) inp i =
  if allIn ranges n (drop i inp) then [i + n] else [].
Proof.
  simpl. revert i; induction n as [|n IH]; intros i.
  - simpl. by rewrite Nat.add_0_r.
  - rewrite Nat.iter_succ_r. simpl flat_map at 2.
    destruct (inp !! i) as [x|] eqn:E.
    + rewrite (drop_lookup_cons _ _ _ E); simpl allIn.
      destruct (inRanges ranges x); simpl.
      * rewrite IH. by replace (S i + n) with (i + S n) by lia.
      * apply iter_flat_map_nil.
    + rewrite drop_ge by (by apply lookup_ge_None). simpl.
      apply iter_flat_map_nil.
Qed.

Lemma allIn_forallb ranges n s :
  allIn ranges n s = Nat.leb n (length s) && forallb (inRanges ranges) (take n s).
Proof.
  revert s; induction n as [|n IH]; intros [|x s]; simpl; try done.
  rewrite IH. destruct (inRanges ranges x); simpl; [done | by rewrite andb_false_r].
Qed.

Lemma allIn_isKey s :
  allIn [(48, 57); (97, 102)]%N 64 s && Nat.eqb (length s) 64 = isKey s.
Proof.
  rewrite allIn_forallb. unfold isKey.
  destruct (Nat.eqb_spec (length s) 64) as [Hl|Hl].
  - rewrite firstn_all2 by lia. rewrite Hl. simpl. by rewrite andb_true_r.
  - by rewrite andb_false_r.
Qed.

(** Where [searchFrom] and [exec] find their match. *)
Lemma searchFrom_None r inp n i :
  searchFrom r inp n i = None ↔ ∀ j, i ≤ j < i + n → run r inp j = [].
Proof.
  revert i; induction n as [|n IH]; intros i; simpl.
  - split; [intros _ j ?; lia | done].
  - destruct (run r inp i) as [|e es] eqn:E.
    + rewrite IH. split; intros H j Hj.
      * destruct (decide (j = i)) as [->|]; [done | apply H; lia].
      * apply H; lia.
    + split; [done | intros H]. specialize (H i). rewrite E in H.
      discriminate H; lia.
Qed.

Lemma searchFrom_Some r inp n i s e :
  searchFrom r inp n i = Some (s, e) ↔
  i ≤ s < i + n ∧ head (run r inp s) = Some e ∧ ∀ j, i ≤ j < s → run r inp j = [].
Proof.
  revert i; induction n as [|n IH]; intros i; simpl.
  - split; [done | intros [? _]; lia].
  - destruct (run r inp i) as [|e' es] eqn:E.
    + rewrite IH. split.
      * intros (Hs & He & Hj). repeat split; [lia | lia | done |].
        intros j ?. destruct (decide (j = i)) as [->|]; [done | apply Hj; lia].
      * intros (Hs & He & Hj).
        assert (s ≠ i) by (intros ->; rewrite E in He; done).
        repeat split; [lia | lia | done |]. intros j ?; apply Hj; lia.
    + split.
      * intros [= <- <-]. rewrite E. repeat split; [lia | lia | intros j ?; lia].
      * intros (Hs & He & Hj). destruct (decide (s = i)) as [->|].
        -- rewrite E in He. by simplify_eq/=.
        -- specialize (Hj i). rewrite E in Hj. discriminate Hj; lia.
Qed.

Lemma exec_None r inp last :
  exec r inp last = None ↔ ∀ j, last ≤ j ≤ length inp → run r inp j = [].
Proof.
  unfold exec. rewrite searchFrom_None.
  split; intros H j Hj; apply H; lia.
Qed.

Lemma exec_Some r inp last s e :
  exec r inp last = Some (s, e) ↔
  last ≤ s ≤ length inp ∧ head (run r inp s) = Some e ∧
  ∀ j, last ≤ j < s → run r inp j = [].
Proof.
  unfold exec. rewrite searchFrom_Some.
  split; intros (Hs & He & Hj); repeat split; try done; lia.
Qed.

(** A pattern that starts with [^] is tried at position 0 only. *)
Lemma matches_Bol r s :
  matches (Seq Bol r) s = match run r s 0 with [] => false | _ :: _ => true end.
Proof.
  unfold matches.
  destruct (exec (Seq Bol r) s 0) as [[i e]|] eqn:E.
  - apply exec_Some in E as (Hs & He & Hj).
    destruct i as [|i]; simpl in He.
    + rewrite app_nil_r in He. by destruct (run r s 0).
    + done.
  - rewrite exec_None in E. specialize (E 0). simpl in E.
    rewrite app_nil_r in E. rewrite E; [done | lia].
Qed.

Lemma matches_HYPER_SCHEME uri :
  matches HYPER_SCHEME uri = bool_decide (take 6 uri = js "hyper:").
Proof.
  unfold HYPER_SCHEME, Lit. rewrite matches_Bol, run_LitStr.
  change (length (js "hyper:")) with 6. rewrite drop_0.
  by destruct (bool_decide _).
Qed.

Lemma matches_ED25519_KEY s : matches ED25519_KEY s = isKey s.
Proof.
  unfold ED25519_KEY. rewrite matches_Bol.
  change (run (Seq (Rep 64 hexClass) Eol) s 0)
    with (flat_map (run Eol s) (run (Rep 64 hexClass) s 0)).
  unfold hexClass. rewrite run_Rep_Class, drop_0, <- allIn_isKey.
  destruct (allIn _ 64 s); [|done]. cbn -[Nat.eqb]. rewrite app_nil_r.
  rewrite (Nat.eqb_sym 64). by destruct (Nat.eqb (length s) 64).
Qed.

(** [extractKey] without the matcher. *)
Lemma extractKey_unfold uri :
  extractKey uri =
  let key := if bool_decide (take 6 uri = js "hyper:")
             then take 64 (drop 8 uri) else take 64 uri in
  if isKey key then Some key else None.
Proof.
  unfold extractKey. rewrite matches_HYPER_SCHEME, matches_ED25519_KEY.
  unfold slice. by rewrite drop_0.
Qed.

Lemma extractKey_isKey uri key : extractKey uri = Some key → isKey key = true.
Proof.
  rewrite extractKey_unfold. cbv zeta.
  destruct (isKey _) eqn:E; [|done]. by intros [= <-].
Qed.

Lemma extractKey_of_key key : isKey key = true → extractKey key = Some key.
Proof.
  intros Hk. rewrite extractKey_unfold. cbv zeta.
  assert (Hl : length key = 64).
  { unfold isKey in Hk. apply andb_prop in Hk as [Hl _]. by apply Nat.eqb_eq. }
  assert (Hh : bool_decide (take 6 key = js "hyper:") = false).
  { apply bool_decide_eq_false_2. intros Heq.
    unfold isKey in Hk. apply andb_prop in Hk as [_ Hhex].
    destruct key as [|x key]; [done|]. simpl in Hhex.
    injection Heq as -> _. done. }
  rewrite Hh, firstn_all2 by lia. by rewrite Hk.
Qed.

Lemma extractKey_of_address key :
  isKey key = true → extractKey (js "hyper://" ++ key) = Some key.
Proof.
  intros Hk. rewrite extractKey_unfold. cbv zeta.
  assert (Hl : length key = 64).
  { unfold isKey in Hk. apply andb_prop in Hk as [Hl _]. by apply Nat.eqb_eq. }
  change (take 6 (js "hyper://" ++ key)) with (js "hyper:").
  rewrite bool_decide_eq_true_2 by done.
  change (drop 8 (js "hyper://" ++ key)) with key.
  rewrite firstn_all2 by lia. by rewrite Hk.
Qed.

(** ** The scraper *)

Lemma isKey_take s : isKey (take 64 s) = allIn [(48, 57); (97, 102)]%N 64 s.
Proof.
  rewrite allIn_forallb. unfold isKey. rewrite length_take.
  destruct (Nat.leb_spec 64 (length s)).
  - by replace (64 `min` length s) with 64 by lia.
  - replace (64 `min` length s) with (length s) by lia.
    destruct (Nat.eqb_spec (length s) 64); [lia | done].
Qed.

Lemma addressAt_unfold text i :
  addressAt text i =
  bool_decide (take 8 (drop i text) = js "hyper://")
  && allIn [(48, 57); (97, 102)]%N 64 (drop (i + 8) text).
Proof.
  unfold addressAt, isAddress.
  rewrite take_take. change (8 `min` 72) with 8.
  replace (drop 8 (take 72 (drop i text))) with (take 64 (drop 8 (drop i text)))
    by (by rewrite take_drop_commute).
  by rewrite isKey_take, drop_drop.
Qed.

Lemma run_HYPER_URI_SCRAPER text i :
  run HYPER_URI_SCRAPER text i = if addressAt text i then [i + 72] else [].
Proof.
  rewrite addressAt_unfold. unfold HYPER_URI_SCRAPER, Lit, hexClass.
  change (run (Seq ?a ?b) text i) with (flat_map (run b text) (run a text i)).
  rewrite run_LitStr. change (length (js "hyper://")) with 8.
  destruct (bool_decide _); [|done].
  cbn [flat_map andb]. rewrite app_nil_r, run_Rep_Class.
  by replace (i + 8 + 64) with (i + 72) by lia.
Qed.

(** What an address at position [i] says about each code unit. *)
Lemma addressAt_lookup text i :
  addressAt text i = true →
  ∀ j, j < 72 →
    ∃ x, text !! (i + j) = Some x
         ∧ (j < 8 → js "hyper://" !! j = Some x)
         ∧ (8 ≤ j → isHex x = true).
Proof.
  unfold addressAt, isAddress. intros H j Hj.
  apply andb_prop in H as [Hp Hk]. apply bool_decide_eq_true in Hp.
  unfold isKey in Hk. apply andb_prop in Hk as [Hl Hhex].
  apply Nat.eqb_eq in Hl. rewrite length_drop in Hl.
  set (s := take 72 (drop i text)) in *.
  assert (Hs : is_Some (s !! j)) by (apply lookup_lt_is_Some; lia).
  destruct Hs as [x Hx]. exists x. split; [|split].
  - subst s. rewrite lookup_take_lt in Hx by lia. by rewrite lookup_drop in Hx.
  - intros Hj8. rewrite <- Hp, lookup_take_lt by lia. done.
  - intros Hj8. rewrite forallb_forall in Hhex. apply Hhex.
    apply list_elem_of_In, list_elem_of_lookup. exists (j - 8).
    rewrite lookup_drop. by replace (8 + (j - 8)) with j by lia.
Qed.

Lemma addressAt_bound text i : addressAt text i = true → i + 72 ≤ length text.
Proof.
  intros H. destruct (addressAt_lookup _ _ H 71) as (x & Hx & _); [lia|].
  apply lookup_lt_Some in Hx. lia.
Qed.

(** Two addresses in one text never share a code unit. *)
Lemma addressAt_apart text i d :
  addressAt text i = true → 0 < d < 72 → addressAt text (i + d) = false.
Proof.
  intros Hi Hd. destruct (addressAt text (i + d)) eqn:Hid; [|done].
  destruct (addressAt_lookup _ _ Hid 0) as (x & Hx & Hh & _); [lia|].
  specialize (Hh ltac:(lia)). injection Hh as <-.
  destruct (addressAt_lookup _ _ Hi d) as (y & Hy & Hlo & Hhi); [lia|].
  rewrite Nat.add_0_r in Hx. rewrite Hx in Hy. injection Hy as <-.
  destruct (Nat.lt_ge_cases d 8) as [Hlt|Hge].
  - specialize (Hlo Hlt).
    do 8 (destruct d as [|d]; [first [lia | discriminate Hlo]|]). lia.
  - specialize (Hhi Hge). discriminate Hhi.
Qed.

Lemma filter_seq_nil (P : nat → bool) a n :
  (∀ j, a ≤ j < a + n → P j = false) → List.filter P (seq a n) = [].
Proof.
  revert a; induction n as [|n IH]; intros a H; simpl; [done|].
  rewrite H by lia. apply IH. intros j ?; apply H; lia.
Qed.

Lemma occurrencesFrom_skip text last i :
  last ≤ i →
  (∀ j, last ≤ j < i → addressAt text j = false) →
  addressAt text i = true →
  occurrencesFrom text last = take 72 (drop i text) :: occurrencesFrom text (i + 72).
Proof.
  intros Hle Hbefore Hi. pose proof (addressAt_bound _ _ Hi) as Hb.
  unfold occurrencesFrom.
  replace (length text - last)
    with ((i - last) + (1 + (71 + (length text - (i + 72))))) by lia.
  rewrite !seq_app, !List.filter_app.
  rewrite (filter_seq_nil _ last) by (intros j ?; apply Hbefore; lia).
  replace (last + (i - last)) with i by lia.
  rewrite (filter_seq_nil _ (i + 1)).
  2:{ intros j ?. replace j with (i + (j - i)) by lia.
      apply addressAt_apart; [done | lia]. }
  simpl. rewrite Hi. simpl.
  by replace (i + 1 + 71) with (i + 72) by lia.
Qed.

Lemma occurrencesFrom_none text last :
  (∀ j, last ≤ j ≤ length text → addressAt text j = false) →
  occurrencesFrom text last = [].
Proof.
  intros H. unfold occurrencesFrom. rewrite filter_seq_nil; [done|].
  intros j ?; apply H; lia.
Qed.

Lemma matchLoop_occurrences text fuel last :
  S (length text) ≤ fuel + last →
  matchLoop HYPER_URI_SCRAPER text fuel last = occurrencesFrom text last.
Proof.
  revert last; induction fuel as [|fuel IH]; intros last Hfuel; simpl.
  - symmetry. apply occurrencesFrom_none. intros j ?; lia.
  - destruct (exec HYPER_URI_SCRAPER text last) as [[i e]|] eqn:E.
    + apply exec_Some in E as (Hi & He & Hbefore).
      rewrite run_HYPER_URI_SCRAPER in He.
      destruct (addressAt text i) eqn:Hat; [|done].
      injection He as <-.
      replace (Nat.eqb (i + 72) i) with false by (symmetry; apply Nat.eqb_neq; lia).
      rewrite IH by lia.
      rewrite (occurrencesFrom_skip text last i); [| lia | | done].
      * unfold slice. by replace (i + 72 - i) with 72 by lia.
      * intros j Hj. specialize (Hbefore j Hj).
        rewrite run_HYPER_URI_SCRAPER in Hbefore.
        by destruct (addressAt text j).
    + rewrite exec_None in E. symmetry. apply occurrencesFrom_none.
      intros j Hj. specialize (E j Hj). rewrite run_HYPER_URI_SCRAPER in E.
      by destruct (addressAt text j).
Qed.

Lemma matchG_scraper text :
  default [] (matchG HYPER_URI_SCRAPER text) = occurrences text.
Proof.
  unfold matchG. rewrite matchLoop_occurrences by lia.
  fold (occurrences text). by destruct (occurrences text).
Qed.

(** ** The loop of [add] and [addQueue] *)

Lemma pop_snoc {A} (l : list A) x : pop (l ++ [x]) = Some (x, l).
Proof. unfold pop. by rewrite reverse_snoc, reverse_involutive. Qed.

Lemma pop_None {A} (l : list A) : pop l = None → l = [].
Proof.
  destruct l as [|y l] using rev_ind; [done|]. by rewrite pop_snoc.
Qed.

Lemma pop_Some {A} (l : list A) x rest : pop l = Some (x, rest) → l = rest ++ [x].
Proof.
  destruct l as [|y l] using rev_ind; [done|].
  rewrite pop_snoc. by intros [= -> ->].
Qed.

Lemma addLoop_app l1 l2 st : addLoop (l1 ++ l2) st = addLoop l2 (addLoop l1 st).
Proof. apply foldl_app. Qed.

Lemma addLoop_cons uri uris st :
  addLoop (uri :: uris) st = addLoop uris (addStep st uri).
Proof. done. Qed.

Lemma addsTo_skip uri uris q c new :
  (∀ k, extractKey uri = Some k → (k ∈ q) ∨ (k ∈ c)) →
  addsTo uris q c new → addsTo (uri :: uris) q c new.
Proof.
  intros Hskip (Hnd & Hnew & Hall). split; [done | split].
  - intros k Hk. destruct (Hnew k Hk) as (Hq & Hc & u & Hu & He).
    split; [done | split; [done|]]. exists u. split; [by right | done].
  - intros u k Hu He. apply elem_of_cons in Hu as [->|Hu]; [|by eauto].
    destruct (Hskip k He) as [Hq|Hc]; [left | by right].
    apply elem_of_app. by left.
Qed.

Lemma addsTo_push uri uris q c key new :
  extractKey uri = Some key → key ∉ q → key ∉ c →
  addsTo uris (q ++ [key]) c new → addsTo (uri :: uris) q c (key :: new).
Proof.
  intros He Hq Hc (Hnd & Hnew & Hall). split; [|split].
  - constructor; [|done]. intros Hk. destruct (Hnew key Hk) as [Hn _].
    apply Hn, elem_of_app. right. by left.
  - intros k Hk. apply elem_of_cons in Hk as [->|Hk].
    + split; [done | split; [done|]]. exists uri. split; [by left | done].
    + destruct (Hnew k Hk) as (Hn & Hkc & u & Hu & Hue).
      split; [|split; [done|]].
      * intros Hkq. apply Hn, elem_of_app. by left.
      * exists u. split; [by right | done].
  - intros u k Hu Hue. apply elem_of_cons in Hu as [->|Hu].
    + left. assert (k = key) as -> by congruence.
      apply elem_of_app. right. by left.
    + destruct (Hall u k Hu Hue) as [Hin|Hin]; [left | by right].
      by rewrite <- app_assoc in Hin.
Qed.

Lemma addLoop_spec uriList q c n :
  ∃ new, addLoop uriList (q, c, n) = (q ++ new, c, n + length new)
         ∧ addsTo uriList q c new.
Proof.
  revert q n; induction uriList as [|uri uris IH]; intros q n.
  { exists []. rewrite app_nil_r, Nat.add_0_r. split; [done|].
    split; [constructor | split].
    - intros k Hk. by apply elem_of_nil in Hk.
    - intros u k Hu. by apply elem_of_nil in Hu. }
  rewrite addLoop_cons. unfold addStep.
  destruct (extractKey uri) as [key|] eqn:E.
  2:{ destruct (IH q n) as (new & -> & Hadds). exists new. split; [done|].
      apply addsTo_skip; [|done]. intros k Hk. congruence. }
  case_bool_decide as Hq.
  { destruct (IH q n) as (new & -> & Hadds). exists new. split; [done|].
    apply addsTo_skip; [|done].
    intros k Hk. rewrite E in Hk. injection Hk as <-. by left. }
  case_bool_decide as Hc.
  { destruct (IH q n) as (new & -> & Hadds). exists new. split; [done|].
    apply addsTo_skip; [|done].
    intros k Hk. rewrite E in Hk. injection Hk as <-. by right. }
  destruct (IH (q ++ [key]) (S n)) as (new & -> & Hadds).
  exists (key :: new). rewrite <- app_assoc. simpl.
  split; [f_equal; lia|]. by apply addsTo_push.
Qed.

(** The list of keys that the loop appends does not depend on where
    [count] starts. *)
Lemma addLoop_count uriList q c n :
  addLoop uriList (q, c, n) =
  ((addLoop uriList (q, c, 0)).1.1, (addLoop uriList (q, c, 0)).1.2,
   n + (addLoop uriList (q, c, 0)).2).
Proof.
  revert q n; induction uriList as [|uri uris IH]; intros q n.
  { simpl. by rewrite Nat.add_0_r. }
  rewrite !addLoop_cons. unfold addStep.
  destruct (extractKey uri) as [key|]; [|apply IH].
  case_bool_decide; [apply IH|]. case_bool_decide; [apply IH|].
  rewrite (IH _ (S n)), (IH _ 1). simpl. f_equal. lia.
Qed.

Lemma addsTo_NoDup uriList q c new :
  addsTo uriList q c new → NoDup q → NoDup (q ++ new).
Proof.
  intros (Hnd & Hnew & _) Hq. apply NoDup_app. split; [done | split; [|done]].
  intros k Hk Hk'. by destruct (Hnew k Hk') as [? _].
Qed.

(** ** Sets of keys *)

Lemma visit_size (U c : gset Key) key :
  key ∈ U → key ∉ c → size (U ∖ ({[key]} ∪ c)) < size (U ∖ c).
Proof. intros HU Hc. apply subset_size. set_solver. Qed.

Lemma visit_again (c : gset Key) key : key ∈ c → {[key]} ∪ c = c.
Proof. set_solver. Qed.

Lemma visited_cons (c : gset Key) key keys :
  list_to_set keys ∪ ({[key]} ∪ c) = list_to_set (key :: keys) ∪ c.
Proof. set_solver. Qed.

Lemma visited_nil (c : gset Key) : c = list_to_set [] ∪ c.
Proof. set_solver. Qed.

(** ** [index.js]: the queue *)

Lemma index_add_unfold this uriList :
  Index.add this uriList =
  ((addLoop uriList (Index.queue this, Index.crawlSet this, 0)).2,
   {| Index.crawlSet := (addLoop uriList (Index.queue this, Index.crawlSet this, 0)).1.2;
      Index.queue := (addLoop uriList (Index.queue this, Index.crawlSet this, 0)).1.1 |}).
Proof. unfold Index.add. by destruct (addLoop _ _) as [[q c] n]. Qed.

Lemma index_add_spec this uriList :
  ∃ new,
    Index.add this uriList =
      (length new,
       {| Index.crawlSet := Index.crawlSet this; Index.queue := Index.queue this ++ new |})
    ∧ addsTo uriList (Index.queue this) (Index.crawlSet this) new.
Proof.
  destruct (addLoop_spec uriList (Index.queue this) (Index.crawlSet this) 0)
    as (new & Heq & Hadds).
  exists new. split; [|done]. by rewrite index_add_unfold, Heq.
Qed.

Lemma index_add_nil this : (Index.add this []).2 = this.
Proof. by destruct this. Qed.

Lemma index_add_app this l1 l2 :
  (Index.add (Index.add this l1).2 l2).2 = (Index.add this (l1 ++ l2)).2.
Proof.
  rewrite !index_add_unfold. simpl. rewrite addLoop_app.
  destruct (addLoop l1 _) as [[q c] n]. simpl.
  by rewrite (addLoop_count l2 q c n).
Qed.

Lemma index_scrapeTargets_add drive targets q :
  Index.scrapeTargets drive targets q =
  (Index.add q (flat_map (λ target,
      default [] (Index.scrapeHyperAddresses <$> readFile drive target)) targets)).2.
Proof.
  revert q; induction targets as [|t ts IH]; intros q.
  - by rewrite index_add_nil.
  - unfold Index.scrapeTargets in *. simpl foldl. simpl flat_map.
    rewrite <- index_add_app, IH.
    destruct (readFile drive t); [done|]. simpl default. by rewrite index_add_nil.
Qed.

Lemma index_crawl_add world key q :
  Index.crawl world key q = (Index.add q (indexLinksOf world key)).2.
Proof.
  unfold Index.crawl, indexLinksOf, indexLinks.
  destruct (world key) as [drive|]; [|by rewrite index_add_nil].
  destruct (readdirRecursive drive) as [entries|]; [|by rewrite index_add_nil].
  cbv zeta. by rewrite index_scrapeTargets_add, index_add_app.
Qed.

Lemma indexInv_new : indexInv Index.newCrawlQueue.
Proof. split; [constructor | intros k Hk; by apply elem_of_nil in Hk]. Qed.

Lemma indexInv_add q uriList : indexInv q → indexInv (Index.add q uriList).2.
Proof.
  intros [Hnd Hdis]. destruct (index_add_spec q uriList) as (new & -> & Hadds).
  split; simpl.
  - by eapply addsTo_NoDup.
  - intros k [Hk|Hk]%elem_of_app; [by apply Hdis|].
    destruct Hadds as (_ & Hnew & _). by destruct (Hnew k Hk) as (_ & ? & _).
Qed.

Lemma index_next_Some q key q1 :
  Index.next q = Some (key, q1) →
  Index.queue q = Index.queue q1 ++ [key]
  ∧ Index.crawlSet q1 = {[key]} ∪ Index.crawlSet q.
Proof.
  unfold Index.next. destruct (pop (Index.queue q)) as [[k rest]|] eqn:E; [|done].
  intros [= <- <-]. by apply pop_Some in E.
Qed.

Lemma index_next_None q : Index.next q = None → Index.queue q = [].
Proof.
  unfold Index.next. destruct (pop (Index.queue q)) as [[k rest]|] eqn:E; [done|].
  intros _. by apply pop_None.
Qed.

Lemma indexInv_next q key q1 :
  indexInv q → Index.next q = Some (key, q1) →
  indexInv q1 ∧ (key ∉ Index.crawlSet q) ∧ (key ∉ Index.queue q1).
Proof.
  intros [Hnd Hdis] Hnext. apply index_next_Some in Hnext as [Hq Hc].
  rewrite Hq in Hnd, Hdis. apply NoDup_app in Hnd as (Hnd & Hnot & _).
  split; [split|split].
  - done.
  - intros k Hk. rewrite Hc. intros [Hin|Hin]%elem_of_union.
    + apply elem_of_singleton in Hin as ->. eapply Hnot; [done | by left].
    + eapply Hdis; [|done]. apply elem_of_app. by left.
  - apply Hdis, elem_of_app. right. by left.
  - intros Hk. eapply Hnot; [done | by left].
Qed.

Lemma indexInv_crawl world key q : indexInv q → indexInv (Index.crawl world key q).
Proof. rewrite index_crawl_add. apply indexInv_add. Qed.

Lemma index_crawl_spec world key q :
  ∃ new,
    Index.crawl world key q =
      {| Index.crawlSet := Index.crawlSet q; Index.queue := Index.queue q ++ new |}
    ∧ addsTo (indexLinksOf world key) (Index.queue q) (Index.crawlSet q) new.
Proof.
  rewrite index_crawl_add.
  destruct (index_add_spec q (indexLinksOf world key)) as (new & -> & Hadds).
  by exists new.
Qed.

Lemma index_exhaust_S fuel world options indexDrive indexMounts q mounted :
  Index.exhaust (S fuel) world options indexDrive indexMounts q mounted =
  match Index.next q with
  | None => Some ([], q, mounted)
  | Some (key, q1) =>
      match Index.exhaust fuel world options indexDrive indexMounts
              (Index.crawl world key q1)
              (Index.mountStep options indexDrive indexMounts key mounted) with
      | Some (keys, qn, m) => Some (key :: keys, qn, m)
      | None => None
      end
  end.
Proof. done. Qed.

Section IndexTermination.
Variables (world : Index.Accessor) (options : Index.Options).
Variables (indexDrive : Drive) (indexMounts : list Str).
(** A finite set that holds every key that a crawl can come upon. *)
Variable U : gset Key.
Hypothesis closed :
  ∀ key uri k, uri ∈ indexLinksOf world key → extractKey uri = Some k → k ∈ U.

Lemma index_exhaust_total n :
  ∀ q mounted,
    indexInv q →
    (∀ k, k ∈ Index.queue q → k ∈ U) →
    size (U ∖ Index.crawlSet q) ≤ n →
    ∃ keys qn m,
      Index.exhaust (S n) world options indexDrive indexMounts q mounted
        = Some (keys, qn, m)
      ∧ Index.queue qn = []
      ∧ indexInv qn
      ∧ NoDup keys
      ∧ (∀ k, k ∈ keys → k ∉ Index.crawlSet q)
      ∧ Index.crawlSet qn = list_to_set keys ∪ Index.crawlSet q.
Proof.
  induction n as [|n IH]; intros q mounted Hinv HU Hsize;
    rewrite index_exhaust_S;
    destruct (Index.next q) as [[key q1]|] eqn:Hnext.
  2,4: (exists [], q, mounted; apply index_next_None in Hnext;
        repeat split;
        [done | apply Hinv | apply Hinv | constructor | | apply visited_nil];
        intros k Hk; by apply elem_of_nil in Hk).
  all: destruct (indexInv_next _ _ _ Hinv Hnext) as (Hinv1 & Hfresh & Hnotq);
    apply index_next_Some in Hnext as [Hq Hc];
    assert (HkeyU : key ∈ U) by (apply HU; rewrite Hq; apply elem_of_app; right; by left);
    pose proof (visit_size U _ _ HkeyU Hfresh) as Hlt; rewrite <- Hc in Hlt.
  { lia. }
  destruct (index_crawl_spec world key q1) as (new & Hcrawl & Hadds).
  destruct (IH (Index.crawl world key q1)
               (Index.mountStep options indexDrive indexMounts key mounted))
    as (keys & qn & m & -> & Hempty & Hinvn & Hnd & Hdis & Hset).
  - by apply indexInv_crawl.
  - rewrite Hcrawl. simpl. intros k [Hk|Hk]%elem_of_app.
    + apply HU. rewrite Hq. apply elem_of_app. by left.
    + destruct Hadds as (_ & Hnew & _).
      destruct (Hnew k Hk) as (_ & _ & uri & Huri & He). by eapply closed.
  - rewrite Hcrawl. simpl. lia.
  - rewrite Hcrawl in Hdis, Hset. simpl in Hdis, Hset.
    exists (key :: keys), qn, m. repeat split; try done.
    + apply Hinvn.
    + apply Hinvn.
    + constructor; [|done]. intros Hk. apply (Hdis _ Hk). rewrite Hc.
      apply elem_of_union. left. by apply elem_of_singleton.
    + intros k [->|Hk]%elem_of_cons; [done|].
      intros Hkc. apply (Hdis _ Hk). rewrite Hc. apply elem_of_union. by right.
    + rewrite Hset, Hc. apply visited_cons.
Qed.
End IndexTermination.

(** ** The daemon client: the working memory *)

Lemma cli_addQueue_unfold m uriList :
  Cli.addQueue m uriList =
  ((addLoop uriList (Cli.queue m, Cli.crawled m, 0)).2,
   {| Cli.crawled := (addLoop uriList (Cli.queue m, Cli.crawled m, 0)).1.2;
      Cli.queue := (addLoop uriList (Cli.queue m, Cli.crawled m, 0)).1.1 |}).
Proof. unfold Cli.addQueue. by destruct (addLoop _ _) as [[q c] n]. Qed.

Lemma cli_addQueue_spec m uriList :
  ∃ new,
    Cli.addQueue m uriList =
      (length new, {| Cli.crawled := Cli.crawled m; Cli.queue := Cli.queue m ++ new |})
    ∧ addsTo uriList (Cli.queue m) (Cli.crawled m) new.
Proof.
  destruct (addLoop_spec uriList (Cli.queue m) (Cli.crawled m) 0)
    as (new & Heq & Hadds).
  exists new. split; [|done]. by rewrite cli_addQueue_unfold, Heq.
Qed.

Lemma cli_addQueue_nil m : (Cli.addQueue m []).2 = m.
Proof. by destruct m. Qed.

Lemma cli_addQueue_app m l1 l2 :
  (Cli.addQueue (Cli.addQueue m l1).2 l2).2 = (Cli.addQueue m (l1 ++ l2)).2.
Proof.
  rewrite !cli_addQueue_unfold. simpl. rewrite addLoop_app.
  destruct (addLoop l1 _) as [[q c] n]. simpl.
  by rewrite (addLoop_count l2 q c n).
Qed.

Lemma cli_scrapeEntries_add drive entries m :
  Cli.scrapeEntries drive entries m =
  (Cli.addQueue m (flat_map (λ entry,
      default [] (Cli.scrapeURIs <$> readFile drive entry)) entries)).2.
Proof.
  revert m; induction entries as [|e es IH]; intros m.
  - by rewrite cli_addQueue_nil.
  - unfold Cli.scrapeEntries in *. simpl foldl. simpl flat_map.
    rewrite <- cli_addQueue_app, IH.
    destruct (readFile drive e); [done|]. simpl default.
    by rewrite cli_addQueue_nil.
Qed.

Lemma cli_crawlHyper_add client key m :
  Cli.crawlHyper client key m =
  {| Cli.crawled := {[key]} ∪ Cli.crawled (Cli.addQueue m (cliLinksOf client key)).2;
     Cli.queue := Cli.queue (Cli.addQueue m (cliLinksOf client key)).2 |}.
Proof.
  unfold Cli.crawlHyper, cliLinksOf, cliLinks.
  destruct (Cli.driveGet client key) as [drive|]; [|by rewrite cli_addQueue_nil].
  destruct (readdirRecursive drive) as [all|]; [|by rewrite cli_addQueue_nil].
  cbv zeta. by rewrite cli_scrapeEntries_add.
Qed.

Lemma cli_crawlHyper_spec client key m :
  ∃ new,
    Cli.crawlHyper client key m =
      {| Cli.crawled := {[key]} ∪ Cli.crawled m; Cli.queue := Cli.queue m ++ new |}
    ∧ addsTo (cliLinksOf client key) (Cli.queue m) (Cli.crawled m) new.
Proof.
  rewrite cli_crawlHyper_add.
  destruct (cli_addQueue_spec m (cliLinksOf client key)) as (new & -> & Hadds).
  by exists new.
Qed.

Lemma cli_exhaustQueue_S fuel client m :
  Cli.exhaustQueue (S fuel) client m =
  match pop (Cli.queue m) with
  | None => Some ([], m)
  | Some (key, rest) =>
      match Cli.exhaustQueue fuel client
              (Cli.crawlHyper client key
                 {| Cli.crawled := Cli.crawled m; Cli.queue := rest |}) with
      | Some (keys, mn) => Some (key :: keys, mn)
      | None => None
      end
  end.
Proof. done. Qed.

Lemma stale_app c q1 q2 : stale c (q1 ++ q2) = stale c q1 + stale c q2.
Proof. unfold stale. by rewrite List.filter_app, length_app. Qed.

Lemma stale_none c q : (∀ k, k ∈ q → k ∉ c) → stale c q = 0.
Proof.
  induction q as [|k q IH]; intros H; [done|]. unfold stale in *. simpl.
  rewrite bool_decide_eq_false_2 by (apply H; by left).
  apply IH. intros k' Hk'. apply H. by right.
Qed.

Lemma stale_visit_old c key q :
  key ∉ q → stale ({[key]} ∪ c) q = stale c q.
Proof.
  induction q as [|k q IH]; intros Hq; [done|]. unfold stale in *. simpl.
  assert (k ≠ key) by (intros ->; apply Hq; by left).
  assert (key ∉ q) by (intros ?; apply Hq; by right).
  rewrite (bool_decide_ext (k ∈ {[key]} ∪ c) (k ∈ c)) by set_solver.
  destruct (bool_decide (k ∈ c)); simpl; by rewrite IH.
Qed.

Lemma stale_visit_new c key new :
  NoDup new → (∀ k, k ∈ new → k ∉ c) → stale ({[key]} ∪ c) new ≤ 1.
Proof.
  induction new as [|k new IH]; intros Hnd Hc; [unfold stale; simpl; lia|].
  apply NoDup_cons in Hnd as [Hk Hnd].
  change (k :: new) with ([k] ++ new). rewrite stale_app.
  destruct (decide (k = key)) as [->|Hne].
  - rewrite (stale_visit_old c key new) by done.
    rewrite (stale_none c new) by (intros k' Hk'; apply Hc; by right).
    unfold stale; simpl. destruct (bool_decide _); simpl; lia.
  - rewrite (stale_none _ [k]).
    + simpl. apply IH; [done|]. intros k' Hk'. apply Hc. by right.
    + intros k' ->%list_elem_of_singleton. intros [Hin|Hin]%elem_of_union.
      * by apply elem_of_singleton in Hin.
      * revert Hin. apply Hc. by left.
Qed.

Lemma stale_singleton c key :
  stale c [key] = if bool_decide (key ∈ c) then 1 else 0.
Proof. unfold stale; simpl. by destruct (bool_decide _). Qed.

(** One turn of [exhaustQueue] lowers this measure: twice the number of
    keys not crawled yet, plus the number of queued keys crawled already. *)
Lemma cli_step_measure (U c : gset Key) links rest key new :
  NoDup (rest ++ [key]) → key ∈ U → addsTo links rest c new →
  2 * size (U ∖ ({[key]} ∪ c)) + stale ({[key]} ∪ c) (rest ++ new)
  < 2 * size (U ∖ c) + stale c (rest ++ [key]).
Proof.
  intros Hnd HU (Hndnew & Hnew & _).
  apply NoDup_app in Hnd as (_ & Hnot & _).
  assert (Hrest : key ∉ rest) by (intros Hk; eapply Hnot; [done | by left]).
  assert (Hfresh : ∀ k, k ∈ new → k ∉ c) by (intros k Hk; by destruct (Hnew k Hk) as (_ & ? & _)).
  rewrite !stale_app. destruct (decide (key ∈ c)) as [Hc|Hc].
  - rewrite visit_again by done. rewrite (stale_none c new) by done.
    rewrite stale_singleton, bool_decide_eq_true_2 by done. lia.
  - pose proof (visit_size U c key HU Hc).
    rewrite stale_visit_old by done.
    pose proof (stale_visit_new c key new Hndnew Hfresh).
    rewrite stale_singleton, bool_decide_eq_false_2 by done. lia.
Qed.

Section CliTermination.
Variable client : Cli.Client.
(** A finite set that holds every key that a crawl can come upon. *)
Variable U : gset Key.
Hypothesis closed :
  ∀ key uri k, uri ∈ cliLinksOf client key → extractKey uri = Some k → k ∈ U.

Lemma cli_exhaustQueue_total n :
  ∀ m,
    NoDup (Cli.queue m) →
    (∀ k, k ∈ Cli.queue m → k ∈ U) →
    2 * size (U ∖ Cli.crawled m) + stale (Cli.crawled m) (Cli.queue m) ≤ n →
    ∃ keys mn,
      Cli.exhaustQueue (S n) client m = Some (keys, mn)
      ∧ Cli.queue mn = []
      ∧ Cli.crawled mn = list_to_set keys ∪ Cli.crawled m.
Proof.
  induction n as [|n IH]; intros m Hnd HU Hsize;
    rewrite cli_exhaustQueue_S;
    destruct (pop (Cli.queue m)) as [[key rest]|] eqn:Hpop.
  2,4: (exists [], m; apply pop_None in Hpop;
        repeat split; [done | apply visited_nil]).
  all: apply pop_Some in Hpop;
    destruct (cli_crawlHyper_spec client key
                {| Cli.crawled := Cli.crawled m; Cli.queue := rest |})
      as (new & Hcrawl & Hadds); simpl in Hcrawl, Hadds;
    rewrite Hpop in Hnd, HU, Hsize;
    assert (HkeyU : key ∈ U) by (apply HU, elem_of_app; right; by left);
    pose proof (cli_step_measure U _ _ _ _ _ Hnd HkeyU Hadds) as Hlt.
  { lia. }
  destruct (IH (Cli.crawlHyper client key
                  {| Cli.crawled := Cli.crawled m; Cli.queue := rest |}))
    as (keys & mn & -> & Hempty & Hset).
  - rewrite Hcrawl. simpl. eapply addsTo_NoDup; [done|].
    by apply NoDup_app in Hnd as (? & _).
  - rewrite Hcrawl. simpl. intros k [Hk|Hk]%elem_of_app.
    + apply HU, elem_of_app. by left.
    + destruct Hadds as (_ & Hnew & _).
      destruct (Hnew k Hk) as (_ & _ & uri & Huri & He). by eapply closed.
  - rewrite Hcrawl. simpl. lia.
  - rewrite Hcrawl in Hset. simpl in Hset.
    exists (key :: keys), mn. repeat split; [done|].
    rewrite Hset. apply visited_cons.
Qed.
End CliTermination.

(** ** Finite drive graphs *)

Lemma reach_closed (links : Drive → list Str) (drives : gmap Str Drive)
      (key : Key) (drive : Drive) (uri : Str) (k : Key) :
  drives !! key = Some drive → uri ∈ links drive → extractKey uri = Some k →
  k ∈ reach links drives.
Proof.
  intros Hd Huri Hk. apply elem_of_list_to_set, list_elem_of_omap.
  exists uri. split; [|done]. apply list_elem_of_In, in_flat_map.
  exists drive. split; [|by apply list_elem_of_In].
  apply list_elem_of_In, list_elem_of_fmap. exists (key, drive).
  split; [done|]. by apply elem_of_map_to_list.
Qed.

Lemma index_reach_closed drives key uri k :
  uri ∈ indexLinksOf (accessorOf drives) key → extractKey uri = Some k →
  k ∈ reach indexLinks drives.
Proof.
  unfold indexLinksOf, accessorOf.
  destruct (drives !! key) as [drive|] eqn:E.
  - by apply reach_closed with key.
  - intros H. by apply elem_of_nil in H.
Qed.

Lemma cli_reach_closed pages drives key uri k :
  uri ∈ cliLinksOf (clientOf pages drives) key → extractKey uri = Some k →
  k ∈ reach cliLinks drives.
Proof.
  unfold cliLinksOf, clientOf. simpl.
  destruct (drives !! key) as [drive|] eqn:E.
  - by apply reach_closed with key.
  - intros H. by apply elem_of_nil in H.
Qed.

(** [pleco] on a finite drive graph returns. *)
Lemma index_pleco_total drives cwd options :
  ∃ fuel outcome,
    Index.pleco fuel (accessorOf drives) cwd options = Some outcome
    ∧ match outcome with
      | Index.Finished keys q _ => Index.queue q = [] ∧ NoDup keys
      | _ => True
      end.
Proof.
  unfold Index.pleco.
  destruct (Index.version options); [by exists 0, Index.PrintedVersion|].
  destruct (accessorOf drives cwd) as [indexDrive|]; [|by exists 0, Index.Rejected].
  destruct (readdir indexDrive) as [top|]; [|by exists 0, Index.Rejected].
  cbv zeta. set (q0 := (Index.add Index.newCrawlQueue [cwd]).2).
  set (U := list_to_set (Index.queue q0) ∪ reach indexLinks drives : gset Key).
  destruct (index_exhaust_total (accessorOf drives) options indexDrive
              (Index.filterMounts indexDrive top) U) with
      (n := size (U ∖ Index.crawlSet q0)) (q := q0) (mounted := 0)
    as (keys & qn & m & Hrun & Hempty & _ & Hnd & _).
  - intros key uri k Huri Hk. apply elem_of_union. right.
    by eapply index_reach_closed.
  - apply indexInv_add, indexInv_new.
  - intros k Hk. apply elem_of_union. left. by apply elem_of_list_to_set.
  - done.
  - exists (S (size (U ∖ Index.crawlSet q0))), (Index.Finished keys qn m).
    by rewrite Hrun.
Qed.

Lemma cli_addQueue_NoDup m uriList :
  NoDup (Cli.queue m) → NoDup (Cli.queue (Cli.addQueue m uriList).2).
Proof.
  intros Hnd. destruct (cli_addQueue_spec m uriList) as (new & -> & Hadds).
  simpl. by eapply addsTo_NoDup.
Qed.

Lemma cli_exhaustInput_cons client uri argv m :
  Cli.exhaustInput client (Cli.ArgString uri :: argv) m =
  Cli.exhaustInput client argv
    (if matches HTTP_SCHEME uri then
       match Cli.crawlHttp client uri m with
       | Some m' => m'
       | None => m
       end
     else if matches HYPER_SCHEME uri then (Cli.addQueue m [uri]).2
     else m).
Proof. reflexivity. Qed.

(** A run that finishes is a run of [exhaustQueue] from the memory that
    [exhaustInput] has left. *)
Lemma cli_main_Finished fuel client argv keys mn :
  Cli.main fuel client argv = Some (Cli.Finished keys mn) →
  Cli.exhaustQueue fuel client
    (Cli.memoryOf (Cli.exhaustInput client argv Cli.emptyMemory))
  = Some (keys, mn).
Proof.
  unfold Cli.main.
  destruct (Cli.exhaustInput client argv Cli.emptyMemory) as [m|m]; [|discriminate].
  cbn [Cli.memoryOf].
  destruct (Cli.exhaustQueue fuel client m) as [[keys' mn']|]; [|discriminate].
  by intros [= <- <-].
Qed.

Lemma cli_exhaustInput_NoDup client argv m :
  NoDup (Cli.queue m) →
  NoDup (Cli.queue (Cli.memoryOf (Cli.exhaustInput client argv m))).
Proof.
  revert m; induction argv as [|[uri|] argv IH]; intros m Hnd; [exact Hnd| |exact Hnd].
  rewrite cli_exhaustInput_cons. apply IH.
  destruct (matches HTTP_SCHEME uri).
  - unfold Cli.crawlHttp. destruct (Cli.fetch client uri); [|exact Hnd].
    apply cli_addQueue_NoDup, Hnd.
  - destruct (matches HYPER_SCHEME uri); [|exact Hnd].
    apply cli_addQueue_NoDup, Hnd.
Qed.

Lemma cli_exhaustInput_Throws client argv m m' :
  Cli.exhaustInput client argv m = Cli.Throws m' → Cli.ArgNumber ∈ argv.
Proof.
  revert m; induction argv as [|[uri|] argv IH]; intros m H;
    [discriminate H| |left].
  right. exact (IH _ H).
Qed.

(** [main] on a finite drive graph ends: it returns with an empty queue,
    or it is left at an argument that is a Number. *)
Lemma cli_main_total pages drives argv :
  ∃ fuel outcome,
    Cli.main fuel (clientOf pages drives) argv = Some outcome
    ∧ match outcome with
      | Cli.Finished keys m => Cli.queue m = []
      | Cli.Aborted _ => Cli.ArgNumber ∈ argv
      end.
Proof.
  unfold Cli.main.
  destruct (Cli.exhaustInput (clientOf pages drives) argv Cli.emptyMemory)
    as [m0|m0] eqn:Hin.
  2:{ exists 0, (Cli.Aborted m0). split; [reflexivity|].
      by eapply cli_exhaustInput_Throws. }
  set (U := list_to_set (Cli.queue m0) ∪ reach cliLinks drives : gset Key).
  destruct (cli_exhaustQueue_total (clientOf pages drives) U) with
      (n := 2 * size (U ∖ Cli.crawled m0) + stale (Cli.crawled m0) (Cli.queue m0))
      (m := m0)
    as (keys & mn & Hrun & Hempty & _).
  - intros key uri k Huri Hk. apply elem_of_union. right.
    by eapply cli_reach_closed.
  - change m0 with (Cli.memoryOf (Cli.Returns m0)). rewrite <- Hin.
    apply cli_exhaustInput_NoDup. constructor.
  - intros k Hk. apply elem_of_union. left. by apply elem_of_list_to_set.
  - done.
  - eexists _, (Cli.Finished keys mn). by rewrite Hrun.
Qed.

(** ** Which keys a crawl appends *)

Lemma elem_of_keysOf links k :
  k ∈ keysOf links ↔ ∃ uri, uri ∈ links ∧ extractKey uri = Some k.
Proof. unfold keysOf. by rewrite elem_of_list_to_set, list_elem_of_omap. Qed.

Lemma addsTo_elem_of links q c new k :
  addsTo links q c new →
  k ∈ new ↔ k ∈ keysOf links ∧ (k ∉ q) ∧ (k ∉ c).
Proof.
  intros (_ & Hnew & Hall). rewrite elem_of_keysOf. split.
  - intros Hk. destruct (Hnew k Hk) as (? & ? & ?). done.
  - intros ((uri & Huri & Hk) & Hq & Hc).
    destruct (Hall uri k Huri Hk) as [Hin|Hin]; [|done].
    apply elem_of_app in Hin as [Hin|Hin]; done.
Qed.

Lemma NoDup_only {A} (l : list A) b : NoDup l → (∀ k, k ∈ l ↔ k = b) → l = [b].
Proof.
  intros Hnd Hl. destruct l as [|x l].
  - assert (H : b ∈ []) by (by apply Hl). by apply elem_of_nil in H.
  - assert (x = b) as -> by (apply Hl; by left).
    destruct l as [|y l]; [done|].
    assert (y = b) as -> by (apply Hl; right; by left).
    apply NoDup_cons in Hnd as [Hnot _]. exfalso. apply Hnot. by left.
Qed.

Lemma none_is_nil {A} (l : list A) : (∀ k, k ∉ l) → l = [].
Proof. destruct l as [|x l]; [done|]. intros H. exfalso. apply (H x). by left. Qed.

Lemma namesJust_intro links b : omap extractKey links = [b] → namesJust links b.
Proof.
  intros H k. unfold keysOf. rewrite H, elem_of_list_to_set.
  apply list_elem_of_singleton.
Qed.

(** A crawl that starts with an empty queue, of a drive whose links name
    just [b]: [b] is appended unless it was crawled. *)
Lemma addsTo_single (links : list Str) (c : gset Key) (new : list Key) (b : Key) :
  addsTo links [] c new → namesJust links b →
  new = if bool_decide (b ∈ c) then [] else [b].
Proof.
  intros Hadds Hkeys. case_bool_decide as Hb.
  - apply none_is_nil. intros k Hk.
    apply (addsTo_elem_of _ _ _ _ k Hadds) in Hk as (Hin & _ & Hc).
    apply Hkeys in Hin as ->. done.
  - apply NoDup_only; [apply Hadds|]. intros k.
    rewrite (addsTo_elem_of _ _ _ _ k Hadds), (Hkeys k).
    split; [by intros (? & _)|]. intros ->. split; [done|]. split; [|done].
    intros H. by apply elem_of_nil in H.
Qed.

Lemma addLoop_fresh uri key c :
  extractKey uri = Some key → key ∉ c →
  addLoop [uri] ([], c, 0) = ([key], c, 1).
Proof.
  intros Hk Hc. rewrite addLoop_cons. unfold addStep. rewrite Hk.
  rewrite bool_decide_eq_false_2 by (intros H; by apply elem_of_nil in H).
  rewrite bool_decide_eq_false_2 by exact Hc.
  reflexivity.
Qed.

Lemma index_seed cwd key :
  extractKey cwd = Some key →
  (Index.add Index.newCrawlQueue [cwd]).2 =
  {| Index.crawlSet := ∅; Index.queue := [key] |}.
Proof.
  intros Hk. rewrite index_add_unfold.
  change (Index.queue Index.newCrawlQueue) with (@nil Key).
  change (Index.crawlSet Index.newCrawlQueue) with (∅ : gset Key).
  rewrite (addLoop_fresh _ _ _ Hk) by apply not_elem_of_empty.
  reflexivity.
Qed.

(** The two-drive cycle in [index.js]. *)
Lemma index_cycle world cwd options indexDrive top A B dA dB :
  Index.version options = false →
  world cwd = Some indexDrive → readdir indexDrive = Some top →
  extractKey cwd = Some A →
  world A = Some dA → world B = Some dB →
  namesJust (indexLinks dA) B → namesJust (indexLinks dB) A →
  A ≠ B →
  ∃ fuel q mounted,
    Index.pleco fuel world cwd options = Some (Index.Finished [A; B] q mounted)
    ∧ Index.queue q = [] ∧ Index.crawlSet q = {[A; B]}.
Proof.
  intros Hv Hcwd Htop Hseed HA HB HlA HlB Hne.
  unfold Index.pleco. rewrite Hv, Hcwd, Htop. cbv zeta.
  rewrite (index_seed _ _ Hseed).
  set (mounts := Index.filterMounts indexDrive top).
  exists 3. rewrite index_exhaust_S.
  change (Index.next {| Index.crawlSet := ∅; Index.queue := [A] |})
    with (Some (A, {| Index.crawlSet := {[A]} ∪ ∅; Index.queue := [] |})).
  destruct (index_crawl_spec world A {| Index.crawlSet := {[A]} ∪ ∅; Index.queue := [] |})
    as (new1 & -> & Hadds1). simpl in Hadds1.
  unfold indexLinksOf in Hadds1. rewrite HA in Hadds1.
  rewrite (addsTo_single _ _ _ _ Hadds1 HlA).
  rewrite bool_decide_eq_false_2 by set_solver.
  cbn [Index.crawlSet Index.queue app]. rewrite index_exhaust_S.
  change (Index.next {| Index.crawlSet := {[A]} ∪ ∅; Index.queue := [B] |})
    with (Some (B, {| Index.crawlSet := {[B]} ∪ ({[A]} ∪ ∅); Index.queue := [] |})).
  destruct (index_crawl_spec world B
              {| Index.crawlSet := {[B]} ∪ ({[A]} ∪ ∅); Index.queue := [] |})
    as (new2 & -> & Hadds2). simpl in Hadds2.
  unfold indexLinksOf in Hadds2. rewrite HB in Hadds2.
  rewrite (addsTo_single _ _ _ _ Hadds2 HlB).
  rewrite bool_decide_eq_true_2 by set_solver.
  cbn [Index.crawlSet Index.queue app]. rewrite index_exhaust_S.
  change (Index.next {| Index.crawlSet := {[B]} ∪ ({[A]} ∪ ∅); Index.queue := [] |})
    with (@None (Key * Index.CrawlQueue)).
  eexists _, _. split; [reflexivity|]. split; [reflexivity|]. simpl. set_solver.
Qed.

Lemma hyper_not_http uri :
  matches HYPER_SCHEME uri = true → matches HTTP_SCHEME uri = false.
Proof.
  rewrite matches_HYPER_SCHEME. intros H%bool_decide_eq_true.
  unfold HTTP_SCHEME. rewrite matches_Bol.
  do 2 (destruct uri as [|? uri]; [discriminate H|]).
  injection H as -> -> _. reflexivity.
Qed.

Lemma cli_seed client uri key :
  matches HYPER_SCHEME uri = true → extractKey uri = Some key →
  Cli.exhaustInput client [Cli.ArgString uri] Cli.emptyMemory =
  Cli.Returns {| Cli.crawled := ∅; Cli.queue := [key] |}.
Proof.
  intros Hh Hk. rewrite cli_exhaustInput_cons, (hyper_not_http _ Hh), Hh.
  rewrite cli_addQueue_unfold.
  change (Cli.queue Cli.emptyMemory) with (@nil Key).
  change (Cli.crawled Cli.emptyMemory) with (∅ : gset Key).
  rewrite (addLoop_fresh _ _ _ Hk) by apply not_elem_of_empty.
  reflexivity.
Qed.

(** The two-drive cycle in the daemon client. *)
Lemma cli_cycle client uri A B dA dB :
  matches HYPER_SCHEME uri = true → extractKey uri = Some A →
  Cli.driveGet client A = Some dA → Cli.driveGet client B = Some dB →
  namesJust (cliLinks dA) B → namesJust (cliLinks dB) A →
  A ≠ B →
  ∃ fuel m,
    Cli.main fuel client [Cli.ArgString uri] = Some (Cli.Finished [A; B] m)
    ∧ Cli.queue m = [] ∧ Cli.crawled m = {[A; B]}.
Proof.
  intros Hh Hseed HA HB HlA HlB Hne.
  unfold Cli.main. rewrite (cli_seed _ _ _ Hh Hseed).
  exists 3. rewrite cli_exhaustQueue_S.
  change (pop (Cli.queue {| Cli.crawled := ∅; Cli.queue := [A] |}))
    with (Some (A, @nil Key)).
  cbn [Cli.crawled Cli.queue].
  destruct (cli_crawlHyper_spec client A {| Cli.crawled := ∅; Cli.queue := [] |})
    as (new1 & -> & Hadds1). simpl in Hadds1.
  unfold cliLinksOf in Hadds1. rewrite HA in Hadds1.
  rewrite (addsTo_single _ _ _ _ Hadds1 HlA).
  rewrite bool_decide_eq_false_2 by apply not_elem_of_empty.
  cbn [Cli.crawled Cli.queue app]. rewrite cli_exhaustQueue_S.
  change (pop (Cli.queue {| Cli.crawled := {[A]} ∪ ∅; Cli.queue := [B] |}))
    with (Some (B, @nil Key)).
  cbn [Cli.crawled Cli.queue].
  destruct (cli_crawlHyper_spec client B {| Cli.crawled := {[A]} ∪ ∅; Cli.queue := [] |})
    as (new2 & -> & Hadds2). simpl in Hadds2.
  unfold cliLinksOf in Hadds2. rewrite HB in Hadds2.
  rewrite (addsTo_single _ _ _ _ Hadds2 HlB).
  rewrite bool_decide_eq_true_2 by set_solver.
  cbn [Cli.crawled Cli.queue app]. rewrite cli_exhaustQueue_S.
  change (pop (Cli.queue {| Cli.crawled := {[B]} ∪ ({[A]} ∪ ∅); Cli.queue := [] |}))
    with (@None (Key * list Key)).
  eexists. split; [reflexivity|]. split; [reflexivity|]. simpl. set_solver.
Qed.

(** ** What a finished run has done *)

Lemma index_exhaust_sound world options indexDrive indexMounts fuel :
  ∀ q mounted keys qn m,
    indexInv q →
    Index.exhaust fuel world options indexDrive indexMounts q mounted
      = Some (keys, qn, m) →
    Index.queue qn = []
    ∧ indexInv qn
    ∧ NoDup keys
    ∧ (∀ k, k ∈ keys → k ∉ Index.crawlSet q)
    ∧ Index.crawlSet qn = list_to_set keys ∪ Index.crawlSet q.
Proof.
  induction fuel as [|fuel IH]; intros q mounted keys qn m Hinv Hrun; [done|].
  rewrite index_exhaust_S in Hrun.
  destruct (Index.next q) as [[key q1]|] eqn:Hnext.
  2:{ injection Hrun as <- <- <-. apply index_next_None in Hnext.
      repeat split; [done | apply Hinv | apply Hinv | constructor | | apply visited_nil].
      intros k Hk. by apply elem_of_nil in Hk. }
  destruct (Index.exhaust fuel _ _ _ _ _ _) as [[[keys' qn'] m']|] eqn:Hrest; [|done].
  injection Hrun as <- <- <-.
  destruct (indexInv_next _ _ _ Hinv Hnext) as (Hinv1 & Hfresh & Hnotq).
  apply index_next_Some in Hnext as [Hq Hc].
  destruct (index_crawl_spec world key q1) as (new & Hcrawl & Hadds).
  apply IH in Hrest as (Hempty & Hinvn & Hnd & Hdis & Hset);
    [|by apply indexInv_crawl].
  rewrite Hcrawl in Hdis, Hset. simpl in Hdis, Hset.
  repeat split; [done | apply Hinvn | apply Hinvn | | |].
  - constructor; [|done]. intros Hk. apply (Hdis _ Hk). rewrite Hc.
    apply elem_of_union. left. by apply elem_of_singleton.
  - intros k [->|Hk]%elem_of_cons; [done|].
    intros Hkc. apply (Hdis _ Hk). rewrite Hc. apply elem_of_union. by right.
  - rewrite Hset, Hc. apply visited_cons.
Qed.

Lemma cli_exhaustQueue_sound client fuel :
  ∀ m keys mn,
    Cli.exhaustQueue fuel client m = Some (keys, mn) →
    Cli.queue mn = [] ∧ Cli.crawled mn = list_to_set keys ∪ Cli.crawled m.
Proof.
  induction fuel as [|fuel IH]; intros m keys mn Hrun; [done|].
  rewrite cli_exhaustQueue_S in Hrun.
  destruct (pop (Cli.queue m)) as [[key rest]|] eqn:Hpop.
  2:{ injection Hrun as <- <-. apply pop_None in Hpop.
      split; [done | apply visited_nil]. }
  destruct (Cli.exhaustQueue fuel _ _) as [[keys' mn']|] eqn:Hrest; [|done].
  injection Hrun as <- <-.
  destruct (cli_crawlHyper_spec client key
              {| Cli.crawled := Cli.crawled m; Cli.queue := rest |})
    as (new & Hcrawl & Hadds).
  apply IH in Hrest as (Hempty & Hset). rewrite Hcrawl in Hset. simpl in Hset.
  split; [done|]. rewrite Hset. apply visited_cons.
Qed.

Lemma crawls_cons key k keys :
  crawls key (k :: keys) = (if bool_decide (k = key) then 1 else 0) + crawls key keys.
Proof. unfold crawls. simpl. by destruct (bool_decide _). Qed.

Lemma crawls_none key keys : key ∉ keys → crawls key keys = 0.
Proof.
  induction keys as [|k keys IH]; intros H; [done|]. rewrite crawls_cons.
  rewrite bool_decide_eq_false_2 by (intros ->; apply H; by left).
  apply IH. intros ?. apply H. by right.
Qed.

(** In the daemon client a key that is crawled and not queued stays so. *)
Lemma cli_never_again client key fuel :
  ∀ m keys mn,
    Cli.exhaustQueue fuel client m = Some (keys, mn) →
    key ∈ Cli.crawled m → key ∉ Cli.queue m → key ∉ keys.
Proof.
  induction fuel as [|fuel IH]; intros m keys mn Hrun Hc Hq; [done|].
  rewrite cli_exhaustQueue_S in Hrun.
  destruct (pop (Cli.queue m)) as [[k rest]|] eqn:Hpop.
  2:{ injection Hrun as <- <-. intros H. by apply elem_of_nil in H. }
  destruct (Cli.exhaustQueue fuel _ _) as [[keys' mn']|] eqn:Hrest; [|done].
  injection Hrun as <- <-. apply pop_Some in Hpop. rewrite Hpop in Hq.
  destruct (cli_crawlHyper_spec client k
              {| Cli.crawled := Cli.crawled m; Cli.queue := rest |})
    as (new & Hcrawl & Hadds). simpl in Hadds.
  intros [->|Hin]%elem_of_cons.
  { apply Hq, elem_of_app. right. by left. }
  revert Hin. eapply IH; [exact Hrest | |]; rewrite Hcrawl; simpl.
  - apply elem_of_union. by right.
  - intros [Hin|Hin]%elem_of_app.
    + apply Hq, elem_of_app. by left.
    + apply (addsTo_elem_of _ _ _ _ key Hadds) in Hin as (_ & _ & Hnc). done.
Qed.

(** In the daemon client a key is crawled once at most, unless the files
    of its own drive name it. *)
Lemma cli_once_unless_self_link client key fuel :
  key ∉ keysOf (cliLinksOf client key) →
  ∀ m keys mn,
    Cli.exhaustQueue fuel client m = Some (keys, mn) →
    NoDup (Cli.queue m) →
    (key ∈ Cli.queue m → key ∉ Cli.crawled m) →
    crawls key keys ≤ 1.
Proof.
  intros Hself.
  induction fuel as [|fuel IH]; intros m keys mn Hrun Hnd Hq; [done|].
  rewrite cli_exhaustQueue_S in Hrun.
  destruct (pop (Cli.queue m)) as [[k rest]|] eqn:Hpop.
  2:{ injection Hrun as <- <-. unfold crawls; simpl; lia. }
  destruct (Cli.exhaustQueue fuel _ _) as [[keys' mn']|] eqn:Hrest; [|done].
  injection Hrun as <- <-. apply pop_Some in Hpop. rewrite Hpop in Hnd, Hq.
  destruct (cli_crawlHyper_spec client k
              {| Cli.crawled := Cli.crawled m; Cli.queue := rest |})
    as (new & Hcrawl & Hadds). simpl in Hadds.
  pose proof (addsTo_NoDup _ _ _ _ Hadds) as Hnd'.
  apply NoDup_app in Hnd as (Hndrest & Hnot & _).
  rewrite crawls_cons. case_bool_decide as Hk.
  - subst k. rewrite (crawls_none key keys'); [lia|].
    eapply cli_never_again; [exact Hrest | |]; rewrite Hcrawl; simpl.
    + apply elem_of_union. left. by apply elem_of_singleton.
    + intros [Hin|Hin]%elem_of_app.
      * eapply Hnot; [exact Hin | by left].
      * apply (addsTo_elem_of _ _ _ _ key Hadds) in Hin as (Hin & _). done.
  - simpl. eapply IH; [exact Hrest | |]; rewrite Hcrawl; simpl.
    + by apply Hnd'.
    + intros Hin [Hc|Hc]%elem_of_union.
      * apply elem_of_singleton in Hc. congruence.
      * apply elem_of_app in Hin as [Hin|Hin].
        -- revert Hc. apply Hq, elem_of_app. by left.
        -- apply (addsTo_elem_of _ _ _ _ key Hadds) in Hin as (_ & _ & Hnc). done.
Qed.

Lemma cli_exhaustInput_crawled client argv m :
  Cli.crawled (Cli.memoryOf (Cli.exhaustInput client argv m)) = Cli.crawled m.
Proof.
  revert m; induction argv as [|[uri|] argv IH]; intros m; [reflexivity| |reflexivity].
  rewrite cli_exhaustInput_cons, IH.
  destruct (matches HTTP_SCHEME uri).
  - unfold Cli.crawlHttp. destruct (Cli.fetch client uri) as [text|]; [|reflexivity].
    destruct (cli_addQueue_spec m (Cli.scrapeURIs text)) as (new & -> & _).
    reflexivity.
  - destruct (matches HYPER_SCHEME uri); [|reflexivity].
    destruct (cli_addQueue_spec m [uri]) as (new & -> & _). reflexivity.
Qed.

(** ** Further lemmas for the claims *)

Lemma elem_of_occurrences text s :
  s ∈ occurrences text ↔ ∃ i, addressAt text i = true ∧ s = take 72 (drop i text).
Proof.
  unfold occurrences, occurrencesFrom.
  rewrite list_elem_of_In, in_map_iff. split.
  - intros (i & <- & Hi). apply filter_In in Hi as [_ Hi]. by exists i.
  - intros (i & Hi & ->). exists i. split; [done|].
    apply filter_In. split; [|done]. apply in_seq.
    pose proof (addressAt_bound _ _ Hi). lia.
Qed.

Lemma isKey_take_hex digits :
  forallb isHex digits = true → 64 ≤ length digits → isKey (take 64 digits) = true.
Proof.
  intros Hhex Hlen. unfold isKey.
  rewrite length_take. replace (64 `min` length digits) with 64 by lia.
  simpl. apply forallb_forall. intros x Hx.
  rewrite forallb_forall in Hhex. apply Hhex.
  apply list_elem_of_In. apply list_elem_of_In in Hx.
  by apply (subseteq_take 64 digits).
Qed.

Lemma addressAt_inside before digits after :
  forallb isHex digits = true → 64 ≤ length digits →
  addressAt (before ++ js "hyper://" ++ digits ++ after) (length before) = true
  ∧ take 72 (drop (length before) (before ++ js "hyper://" ++ digits ++ after))
    = js "hyper://" ++ take 64 digits.
Proof.
  intros Hhex Hlen.
  assert (Htake : take 72 (drop (length before) (before ++ js "hyper://" ++ digits ++ after))
                  = js "hyper://" ++ take 64 digits).
  { rewrite drop_app_length.
    change 72 with (length (js "hyper://") + 64). rewrite take_app_add.
    by rewrite take_app_le by lia. }
  split; [|done]. unfold addressAt. rewrite Htake. unfold isAddress.
  change (take 8 (js "hyper://" ++ take 64 digits)) with (js "hyper://").
  change (drop 8 (js "hyper://" ++ take 64 digits)) with (take 64 digits).
  rewrite bool_decide_eq_true_2 by done. by apply isKey_take_hex.
Qed.

(** For every queue the iterator of [index.js] takes the key at the end of
    the array and has it in [crawlSet] when it yields. *)
Lemma index_next_lifo c q key :
  Index.next {| Index.crawlSet := c; Index.queue := q ++ [key] |}
  = Some (key, {| Index.crawlSet := {[key]} ∪ c; Index.queue := q |}).
Proof. unfold Index.next. simpl. by rewrite pop_snoc. Qed.

Lemma addLoop_twice (key : Key) (c : gset Key) :
  isKey key = true → key ∉ c → addLoop [key; key] ([], c, 0) = ([key], c, 1).
Proof.
  intros Hk Hc. pose proof (extractKey_of_key _ Hk) as He.
  rewrite !addLoop_cons. unfold addStep at 2. rewrite He.
  rewrite bool_decide_eq_false_2 by (intros H; by apply elem_of_nil in H).
  rewrite bool_decide_eq_false_2 by exact Hc.
  unfold addStep. rewrite He.
  rewrite bool_decide_eq_true_2 by (by left). reflexivity.
Qed.

Lemma addLoop_known (uri : Str) (key : Key) (q : list Key) (c : gset Key) :
  extractKey uri = Some key → key ∈ c → addLoop [uri] (q, c, 0) = (q, c, 0).
Proof.
  intros He Hc. rewrite addLoop_cons. unfold addStep. rewrite He.
  destruct (bool_decide (key ∈ q)); [reflexivity|].
  by rewrite bool_decide_eq_true_2 by exact Hc.
Qed.

Lemma listFails_index_links world key :
  listFails (world key) → indexLinksOf world key = [].
Proof.
  unfold listFails, indexLinksOf, indexLinks.
  destruct (world key) as [d|]; [|done]. by intros ->.
Qed.

Lemma listFails_cli_links client key :
  listFails (Cli.driveGet client key) → cliLinksOf client key = [].
Proof.
  unfold listFails, cliLinksOf, cliLinks.
  destruct (Cli.driveGet client key) as [d|]; [|done]. by intros ->.
Qed.


(** * The claims *)

(** C1, the code at the failing input. In the daemon client a drive whose
    page names the drive itself is crawled twice in one run: while the
    drive is scraped its key is neither queued nor crawled, so [addQueue]
    takes it, and after [crawlHyper] the key is both in [queue] and in
    [crawled]. [index.js] crawls the same drive once. *)
Theorem cli_crawls_self_linking_drive_twice :
  runView (Cli.main 3 (clientOf noPages selfGraph)
             [Cli.ArgString (js "hyper://" ++ keyA)])
  = Some ([keyA; keyA], ([keyA], []))
  ∧ cliView (Cli.crawlHyper (clientOf noPages selfGraph) keyA
               {| Cli.crawled := ∅; Cli.queue := [] |})
    = ([keyA], [keyA])
  ∧ outcomeView (Index.pleco 2 (accessorOf selfGraph) cwdA plain)
    = Some ([keyA], ([keyA], []), 0).
Proof. evaluate. Qed.



(** C3: on every finite drive graph the crawl of either program returns,
    with the queue empty; and where drive [A] names just [B] and drive [B]
    names just [A], a crawl seeded with [A] crawls [A], then [B], each
    once, and ends. The daemon client does not come to its crawl when an
    argument is a Number, and only then: [main] is left while it reads the
    arguments. *)
Theorem crawl_terminates :
  (∀ drives cwd options,
     ∃ fuel outcome,
       Index.pleco fuel (accessorOf drives) cwd options = Some outcome
       ∧ match outcome with
         | Index.Finished keys q _ => Index.queue q = [] ∧ NoDup keys
         | _ => True
         end)
  ∧ (∀ pages drives argv,
       ∃ fuel outcome,
         Cli.main fuel (clientOf pages drives) argv = Some outcome
         ∧ match outcome with
           | Cli.Finished keys m => Cli.queue m = []
           | Cli.Aborted _ => Cli.ArgNumber ∈ argv
           end)
  ∧ (∀ world cwd options indexDrive top A B dA dB,
       Index.version options = false →
       world cwd = Some indexDrive → readdir indexDrive = Some top →
       extractKey cwd = Some A →
       world A = Some dA → world B = Some dB →
       namesJust (indexLinks dA) B → namesJust (indexLinks dB) A →
       A ≠ B →
       ∃ fuel q mounted,
         Index.pleco fuel world cwd options = Some (Index.Finished [A; B] q mounted)
         ∧ Index.queue q = [] ∧ Index.crawlSet q = {[A; B]})
  ∧ (∀ client uri A B dA dB,
       matches HYPER_SCHEME uri = true → extractKey uri = Some A →
       Cli.driveGet client A = Some dA → Cli.driveGet client B = Some dB →
       namesJust (cliLinks dA) B → namesJust (cliLinks dB) A →
       A ≠ B →
       ∃ fuel m,
         Cli.main fuel client [Cli.ArgString uri] = Some (Cli.Finished [A; B] m)
         ∧ Cli.queue m = [] ∧ Cli.crawled m = {[A; B]}).
Proof.
  split; [exact index_pleco_total|]. split; [exact cli_main_total|].
  split; [exact index_cycle | exact cli_cycle].
Qed.

(** [crawl_terminates] at the cycle of the two sample drives. *)
Lemma crawl_terminates_witness :
  (∃ fuel q mounted,
     Index.pleco fuel (accessorOf cycleGraph) cwdA plain
       = Some (Index.Finished [keyA; keyB] q mounted)
     ∧ Index.queue q = [] ∧ Index.crawlSet q = {[keyA; keyB]})
  ∧ (∃ fuel m,
       Cli.main fuel (clientOf noPages cycleGraph)
         [Cli.ArgString (js "hyper://" ++ keyA)]
         = Some (Cli.Finished [keyA; keyB] m)
       ∧ Cli.queue m = [] ∧ Cli.crawled m = {[keyA; keyB]}).
Proof.
  split.
  - refine (proj1 (proj2 (proj2 crawl_terminates))
              (accessorOf cycleGraph) cwdA plain
              (linkPage [keyB]) [js "index.html"] keyA keyB
              (linkPage [keyB]) (linkPage [keyA]) _ _ _ _ _ _ _ _ _);
      try (vm_compute; reflexivity);
      try (apply namesJust_intro; vm_compute; reflexivity).
    vm_compute. discriminate.
  - refine (proj2 (proj2 (proj2 crawl_terminates))
              (clientOf noPages cycleGraph) (js "hyper://" ++ keyA) keyA keyB
              (linkPage [keyB]) (linkPage [keyA]) _ _ _ _ _ _ _);
      try (vm_compute; reflexivity);
      try (apply namesJust_intro; vm_compute; reflexivity).
    vm_compute. discriminate.
Defined.

(** C4, as stated, fails: on [hyper:xx] followed by 64 times [a] the
    specification's [normalizeKey] yields the invalid marker, for the
    reference does not start with [hyper://] and its first 64 code units are
    no key, while [extractKey] yields the key of 64 times [a]. *)
Lemma extractKey_differs_from_normalizeKey :
  normalizeKey oddReference = None
  ∧ extractKey oddReference = Some keyA
  ∧ extractKey oddReference ≠ normalizeKey oddReference.
Proof. by vm_compute. Qed.

(** C4, amended: for every input string, if it starts with the scheme
    [hyper:] the candidate is the code units at positions 8 to 71 (those
    after the eight places of [hyper://]), otherwise it is the first 64 code
    units; the candidate is returned if it is exactly 64 lowercase hex
    digits, and [null] is returned otherwise. So [hyper://] followed by a
    key yields that key, a bare key yields itself, and 64 times uppercase
    [A] yields [null]; [extractKey] and the specification's [normalizeKey]
    agree on every input that starts with [hyper://] or does not start with
    [hyper:]. The daemon client's [extractKey] is the same function. *)
Theorem extractKey_spec :
  (∀ uri,
     extractKey uri =
     let key := if bool_decide (take 6 uri = js "hyper:")
                then take 64 (drop 8 uri) else take 64 uri in
     if isKey key then Some key else None)
  ∧ (∀ rest,
       extractKey (js "hyper://" ++ rest) =
       if isKey (take 64 rest) then Some (take 64 rest) else None)
  ∧ (∀ uri,
       bool_decide (take 8 uri = js "hyper://") || negb (bool_decide (take 6 uri = js "hyper:"))
       = true →
       extractKey uri = normalizeKey uri)
  ∧ (∀ uri key, extractKey uri = Some key → isKey key = true)
  ∧ extractKey keyUpper = None
  ∧ extractKey (js "hyper://" ++ keyA) = Some keyA
  ∧ extractKey (js "not-a-key") = None.
Proof.
  split; [exact extractKey_unfold|]. split; [|split; [|split]].
  - intros rest. by rewrite extractKey_unfold.
  - intros uri H. rewrite extractKey_unfold. unfold normalizeKey.
    destruct (decide (take 8 uri = js "hyper://")) as [H8|H8].
    + rewrite (bool_decide_eq_true_2 _ H8).
      assert (H6 : take 6 uri = js "hyper:").
      { change 6 with (6 `min` 8). rewrite <- take_take, H8. reflexivity. }
      by rewrite (bool_decide_eq_true_2 _ H6).
    + rewrite (bool_decide_eq_false_2 _ H8) in *. simpl in H.
      apply negb_true_iff in H. by rewrite H.
  - exact extractKey_isKey.
  - by vm_compute.
Qed.

(** [extractKey_spec] at [hyper://] followed by 64 times [a]. *)
Lemma extractKey_spec_witness :
  extractKey (js "hyper://" ++ keyA) = normalizeKey (js "hyper://" ++ keyA)
  ∧ isKey keyA = true.
Proof.
  split.
  - apply (proj1 (proj2 (proj2 extractKey_spec))). vm_compute. reflexivity.
  - apply (proj1 (proj2 (proj2 (proj2 extractKey_spec))) keyA keyA).
    vm_compute. reflexivity.
Defined.

(** C5: for every text, [scrapeHyperAddresses] (and [scrapeURIs], the same
    function in the daemon client) returns exactly the substrings that are
    [hyper://] followed by 64 lowercase hex digits, one for each position at
    which such a substring starts, in the order of the positions, so that a
    duplicate is returned as often as it occurs; two such substrings never
    overlap; the result is empty when there is none; and the text with one
    full address and the fragment [hyper://short] yields just the full
    address. *)
Theorem scrape_spec :
  (∀ text, Index.scrapeHyperAddresses text = occurrences text)
  ∧ (∀ text, Cli.scrapeURIs text = occurrences text)
  ∧ (∀ text s,
       s ∈ Index.scrapeHyperAddresses text ↔
       ∃ i, addressAt text i = true ∧ s = take 72 (drop i text))
  ∧ (∀ text i j,
       addressAt text i = true → addressAt text j = true → i < j → i + 72 ≤ j)
  ∧ (∀ text, (∀ i, addressAt text i = false) → Index.scrapeHyperAddresses text = [])
  ∧ Index.scrapeHyperAddresses
      (js "see hyper://" ++ repeatStr "f" 64 ++ js " and junk hyper://short")
    = [js "hyper://" ++ repeatStr "f" 64]
  ∧ Index.scrapeHyperAddresses
      (js "hyper://" ++ keyA ++ js " hyper://" ++ keyB ++ js " hyper://" ++ keyA)
    = [js "hyper://" ++ keyA; js "hyper://" ++ keyB; js "hyper://" ++ keyA].
Proof.
  split; [exact matchG_scraper|]. split; [exact matchG_scraper|].
  split; [|split; [|split; [|split]]].
  - intros text s. unfold Index.scrapeHyperAddresses.
    rewrite matchG_scraper. apply elem_of_occurrences.
  - intros text i j Hi Hj Hlt.
    destruct (Nat.le_gt_cases (i + 72) j) as [|Hgt]; [done|].
    pose proof (addressAt_apart text i (j - i) Hi) as Hno.
    replace (i + (j - i)) with j in Hno by lia.
    rewrite Hno in Hj by lia. done.
  - intros text Hnone. unfold Index.scrapeHyperAddresses.
    rewrite matchG_scraper. apply occurrencesFrom_none. intros j _. apply Hnone.
  - by vm_compute.
  - by vm_compute.
Qed.

(** [scrape_spec] at a text with one address, and at the fragment
    [hyper://short]. *)
Lemma scrape_spec_witness :
  js "hyper://" ++ keyA ∈ Index.scrapeHyperAddresses (js "see hyper://" ++ keyA)
  ∧ Index.scrapeHyperAddresses (js "hyper://short") = [].
Proof.
  split.
  - apply (proj1 (proj2 (proj2 scrape_spec))). exists 4.
    split; vm_compute; reflexivity.
  - apply (proj1 (proj2 (proj2 (proj2 (proj2 scrape_spec))))).
    intros i. unfold addressAt.
    do 14 (destruct i as [|i]; [vm_compute; reflexivity|]).
    rewrite drop_ge by (simpl; lia). reflexivity.
Defined.

(** C6, the code at the failing inputs. In [index.js] the entries
    [.github/data.json], [agit.js] and [node_modules_old/b.js] have a
    scrapable extension and no path segment equal to [node_modules] or
    [.git], yet [filterScrapable] drops them: the pattern has an unescaped
    dot and no end of segment. The three paths of the specification's
    example come out as claimed. In the daemon client no path is excluded:
    the entry [node_modules/c.js] is read and its key queued. *)
Theorem filterScrapable_drops_lookalikes :
  Index.filterScrapable
    [js ".github/data.json"; js "agit.js"; js "node_modules_old/b.js"; js "b.js"]
  = [js "b.js"]
  ∧ Index.filterScrapable [js "a/node_modules/b.js"; js "node_modules/b.js"; js "b.js"]
    = [js "b.js"]
  ∧ indexLinks mixedDrive = [js "hyper://" ++ keyA]
  ∧ cliLinks mixedDrive = [js "hyper://" ++ keyA; js "hyper://" ++ keyB].
Proof. evaluate. Qed.

(** C7, the code at the failing input. Both programs take the key that
    was pushed last. [index.js] puts it into [crawlSet] before the crawl, so
    the crawl of the self-linking drive adds nothing. The daemon client
    scrapes the drive first, in a memory whose [crawled] lacks the key, and
    records the key after the crawl, in [finally]: seeded with [keyB] and
    then [keyA], it crawls [keyA], pushes [keyA] again during that crawl,
    and so crawls [keyA] once more before [keyB]. *)
Theorem cli_records_visit_after_crawl :
  (prod_map id indexView
     <$> Index.next {| Index.crawlSet := ∅; Index.queue := [keyB; keyA] |})
  = Some (keyA, ([keyA], [keyB]))
  ∧ indexView (Index.crawl (accessorOf selfGraph) keyA
                 {| Index.crawlSet := {[keyA]}; Index.queue := [keyB] |})
    = ([keyA], [keyB])
  ∧ pop [keyB; keyA] = Some (keyA, [keyB])
  ∧ cliView (Cli.scrapeEntries (linkPage [keyA]) [js "index.html"]
               {| Cli.crawled := ∅; Cli.queue := [keyB] |})
    = ([], [keyB; keyA])
  ∧ cliView (Cli.crawlHyper (clientOf noPages selfGraph) keyA
               {| Cli.crawled := ∅; Cli.queue := [keyB] |})
    = ([keyA], [keyB; keyA])
  ∧ inputView (Cli.exhaustInput (clientOf noPages selfGraph)
                 [Cli.ArgString (js "hyper://" ++ keyB);
                  Cli.ArgString (js "hyper://" ++ keyA)] Cli.emptyMemory)
    = Some ([], [keyB; keyA])
  ∧ runView (Cli.main 4 (clientOf noPages selfGraph)
               [Cli.ArgString (js "hyper://" ++ keyB);
                Cli.ArgString (js "hyper://" ++ keyA)])
    = Some ([keyA; keyA; keyB], ([keyB; keyA], [])).
Proof. evaluate. Qed.

(** C8: [add] (and [addQueue]) returns the number of keys it has appended
    to the queue; [add(k, k)] with a valid key on a new queue returns 1 and
    leaves the one key queued; [add] of a key that is in the crawled set, as
    it is in [index.js] after the iterator has yielded it, returns 0 and
    leaves the queue as it was. *)
Theorem add_counts_new_keys :
  (∀ this uriList,
     ∃ new,
       Index.queue (Index.add this uriList).2 = Index.queue this ++ new
       ∧ (Index.add this uriList).1 = length new
       ∧ NoDup new
       ∧ ∀ k, k ∈ new ↔ k ∈ keysOf uriList ∧ (k ∉ Index.queue this)
                         ∧ (k ∉ Index.crawlSet this))
  ∧ (∀ k, isKey k = true →
       Index.add Index.newCrawlQueue [k; k]
       = (1, {| Index.crawlSet := ∅; Index.queue := [k] |})
       ∧ Index.size (Index.add Index.newCrawlQueue [k; k]).2 = 1)
  ∧ (∀ this uri k,
       extractKey uri = Some k → k ∈ Index.crawlSet this →
       Index.add this [uri] = (0, this))
  ∧ (∀ this k this1,
       isKey k = true → Index.next this = Some (k, this1) →
       Index.add this1 [k] = (0, this1))
  ∧ (∀ m uriList,
       ∃ new,
         Cli.queue (Cli.addQueue m uriList).2 = Cli.queue m ++ new
         ∧ (Cli.addQueue m uriList).1 = length new
         ∧ NoDup new
         ∧ ∀ k, k ∈ new ↔ k ∈ keysOf uriList ∧ (k ∉ Cli.queue m) ∧ (k ∉ Cli.crawled m))
  ∧ (∀ k, isKey k = true →
       Cli.addQueue Cli.emptyMemory [k; k]
       = (1, {| Cli.crawled := ∅; Cli.queue := [k] |}))
  ∧ (∀ m uri k,
       extractKey uri = Some k → k ∈ Cli.crawled m →
       Cli.addQueue m [uri] = (0, m)).
Proof.
  assert (Hknown : ∀ this uri k,
             extractKey uri = Some k → k ∈ Index.crawlSet this →
             Index.add this [uri] = (0, this)).
  { intros [c q] uri k He Hc. rewrite index_add_unfold.
    cbn [Index.crawlSet Index.queue] in *.
    rewrite (addLoop_known _ _ _ _ He Hc). reflexivity. }
  split; [|split; [|split; [exact Hknown|split; [|split; [|split]]]]].
  - intros this uriList.
    destruct (index_add_spec this uriList) as (new & -> & Hadds).
    exists new. split; [reflexivity|]. split; [reflexivity|].
    split; [apply Hadds|]. intros k. exact (addsTo_elem_of _ _ _ _ k Hadds).
  - intros k Hk. rewrite index_add_unfold.
    change (Index.queue Index.newCrawlQueue) with (@nil Key).
    change (Index.crawlSet Index.newCrawlQueue) with (∅ : gset Key).
    rewrite (addLoop_twice _ _ Hk) by apply not_elem_of_empty.
    split; reflexivity.
  - intros this k this1 Hk Hnext.
    apply Hknown with k; [by apply extractKey_of_key|].
    apply index_next_Some in Hnext as [_ ->].
    apply elem_of_union. left. by apply elem_of_singleton.
  - intros m uriList.
    destruct (cli_addQueue_spec m uriList) as (new & -> & Hadds).
    exists new. split; [reflexivity|]. split; [reflexivity|].
    split; [apply Hadds|]. intros k. exact (addsTo_elem_of _ _ _ _ k Hadds).
  - intros k Hk. rewrite cli_addQueue_unfold.
    change (Cli.queue Cli.emptyMemory) with (@nil Key).
    change (Cli.crawled Cli.emptyMemory) with (∅ : gset Key).
    rewrite (addLoop_twice _ _ Hk) by apply not_elem_of_empty. reflexivity.
  - intros [c q] uri k He Hc. rewrite cli_addQueue_unfold.
    cbn [Cli.crawled Cli.queue] in *.
    rewrite (addLoop_known _ _ _ _ He Hc). reflexivity.
Qed.

(** [add_counts_new_keys] at the key of 64 times [a]. *)
Lemma add_counts_new_keys_witness :
  Index.add Index.newCrawlQueue [keyA; keyA]
  = (1, {| Index.crawlSet := ∅; Index.queue := [keyA] |})
  ∧ Index.add {| Index.crawlSet := {[keyA]} ∪ ∅; Index.queue := [] |} [keyA]
    = (0, {| Index.crawlSet := {[keyA]} ∪ ∅; Index.queue := [] |})
  ∧ Cli.addQueue {| Cli.crawled := {[keyA]}; Cli.queue := [keyB] |} [js "hyper://" ++ keyA]
    = (0, {| Cli.crawled := {[keyA]}; Cli.queue := [keyB] |}).
Proof.
  split; [|split].
  - apply (proj1 (proj2 add_counts_new_keys) keyA). vm_compute. reflexivity.
  - apply (proj1 (proj2 (proj2 (proj2 add_counts_new_keys)))
             {| Index.crawlSet := ∅; Index.queue := [keyA] |} keyA).
    + vm_compute. reflexivity.
    + reflexivity.
  - apply (proj2 (proj2 (proj2 (proj2 (proj2 (proj2 add_counts_new_keys)))))
             {| Cli.crawled := {[keyA]}; Cli.queue := [keyB] |}
             (js "hyper://" ++ keyA) keyA).
    + vm_compute. reflexivity.
    + cbn [Cli.crawled]. apply elem_of_singleton_2. reflexivity.
Defined.

(** C9: for every text in which [hyper://] is followed at once by more
    than 64 lowercase hex digits, the scraper of either program returns
    [hyper://] with the first 64 of those digits; [extractKey] takes that
    match for a valid key, the first 64 digits; and [add] of the matches
    leaves that key queued, unless it was crawled before, as does
    [addQueue] of the matches in the daemon client. *)
Theorem scrape_truncates_long_hex_runs before digits after :
  forallb isHex digits = true → 64 < length digits →
  let text := before ++ js "hyper://" ++ digits ++ after in
  js "hyper://" ++ take 64 digits ∈ Index.scrapeHyperAddresses text
  ∧ js "hyper://" ++ take 64 digits ∈ Cli.scrapeURIs text
  ∧ extractKey (js "hyper://" ++ take 64 digits) = Some (take 64 digits)
  ∧ (∀ q, take 64 digits ∈ Index.queue (Index.add q (Index.scrapeHyperAddresses text)).2
          ∨ take 64 digits ∈ Index.crawlSet q)
  ∧ (∀ m, take 64 digits ∈ Cli.queue (Cli.addQueue m (Cli.scrapeURIs text)).2
          ∨ take 64 digits ∈ Cli.crawled m).
Proof.
  intros Hhex Hlen text.
  destruct (addressAt_inside before digits after Hhex) as [Hat Htake]; [lia|].
  assert (Hin : js "hyper://" ++ take 64 digits ∈ occurrences text).
  { apply elem_of_occurrences. exists (length before). unfold text.
    by rewrite Htake. }
  assert (Hkey : extractKey (js "hyper://" ++ take 64 digits) = Some (take 64 digits)).
  { apply extractKey_of_address, isKey_take_hex; [done | lia]. }
  unfold Index.scrapeHyperAddresses, Cli.scrapeURIs. rewrite matchG_scraper.
  split; [done|]. split; [done|]. split; [done|]. split.
  - intros q. destruct (index_add_spec q (occurrences text)) as (new & -> & Hadds).
    destruct Hadds as (_ & _ & Hall). simpl.
    destruct (Hall _ _ Hin Hkey); [by left | by right].
  - intros m. destruct (cli_addQueue_spec m (occurrences text)) as (new & -> & Hadds).
    destruct Hadds as (_ & _ & Hall). simpl.
    destruct (Hall _ _ Hin Hkey); [by left | by right].
Qed.

(** [scrape_truncates_long_hex_runs] at a link with 68 hex digits: either
    program scrapes the address of [keyA], and from the empty memory
    [addQueue] of what the daemon client scrapes leaves [keyA] queued. *)
Lemma scrape_truncates_long_hex_runs_witness :
  js "hyper://" ++ keyA ∈
    Index.scrapeHyperAddresses (js "<a href=hyper://" ++ (keyA ++ js "0123") ++ js ">")
  ∧ js "hyper://" ++ keyA ∈
      Cli.scrapeURIs (js "<a href=hyper://" ++ (keyA ++ js "0123") ++ js ">")
  ∧ keyA ∈ Cli.queue
             (Cli.addQueue Cli.emptyMemory
                (Cli.scrapeURIs
                   (js "<a href=hyper://" ++ (keyA ++ js "0123") ++ js ">"))).2.
Proof.
  assert (Hhex : forallb isHex (keyA ++ js "0123") = true) by (vm_compute; reflexivity).
  assert (Hlen : 64 < length (keyA ++ js "0123")) by (vm_compute; lia).
  destruct (scrape_truncates_long_hex_runs
              (js "<a href=") (keyA ++ js "0123") (js ">") Hhex Hlen)
    as (Hindex & Hcli & _ & _ & Hqueue).
  split; [exact Hindex|]. split; [exact Hcli|].
  destruct (Hqueue Cli.emptyMemory) as [Hin|Hin]; [exact Hin|].
  by apply not_elem_of_empty in Hin.
Defined.

(** C10: for every queue and every argument list, [add] leaves [crawlSet]
    as it was and only appends to [queue]; so does [addQueue] with
    [crawled] and [queue] in the daemon client. *)
Theorem add_leaves_visited_alone :
  (∀ this uriList,
     Index.crawlSet (Index.add this uriList).2 = Index.crawlSet this
     ∧ ∃ new, Index.queue (Index.add this uriList).2 = Index.queue this ++ new)
  ∧ (∀ m uriList,
       Cli.crawled (Cli.addQueue m uriList).2 = Cli.crawled m
       ∧ ∃ new, Cli.queue (Cli.addQueue m uriList).2 = Cli.queue m ++ new).
Proof.
  split.
  - intros this uriList.
    destruct (index_add_spec this uriList) as (new & -> & _).
    split; [reflexivity | by exists new].
  - intros m uriList.
    destruct (cli_addQueue_spec m uriList) as (new & -> & _).
    split; [reflexivity | by exists new].
Qed.

(** * Further properties of the code *)

(** ** Which keys a run crawls *)

Lemma index_exhaust_covers world options indexDrive indexMounts fuel :
  ∀ q mounted keys qn m,
    Index.exhaust fuel world options indexDrive indexMounts q mounted
      = Some (keys, qn, m) →
    (∀ k, k ∈ Index.queue q → k ∈ keys)
    ∧ (∀ k k', k ∈ keys → k' ∈ keysOf (indexLinksOf world k) →
         k' ∈ keys ∨ k' ∈ Index.crawlSet q).
Proof.
  induction fuel as [|fuel IH]; intros q mounted keys qn m Hrun; [done|].
  rewrite index_exhaust_S in Hrun.
  destruct (Index.next q) as [[key q1]|] eqn:Hnext.
  2:{ injection Hrun as <- <- <-. apply index_next_None in Hnext.
      rewrite Hnext. split.
      - intros k Hk. by apply elem_of_nil in Hk.
      - intros k k' Hk. by apply elem_of_nil in Hk. }
  destruct (Index.exhaust fuel _ _ _ _ _ _) as [[[keys' qn'] m']|] eqn:Hrest; [|done].
  injection Hrun as <- <- <-.
  apply index_next_Some in Hnext as [Hq Hc].
  destruct (index_crawl_spec world key q1) as (new & Hcrawl & Hadds).
  apply IH in Hrest as [Hqueue Hlinks].
  rewrite Hcrawl in Hqueue, Hlinks. cbn [Index.queue Index.crawlSet] in *.
  split.
  - intros k Hk. rewrite Hq in Hk. apply elem_of_app in Hk as [Hk|Hk].
    + right. apply Hqueue, elem_of_app. by left.
    + apply list_elem_of_singleton in Hk as ->. by left.
  - assert (Hold : ∀ k', k' ∈ Index.crawlSet q1 →
                     k' ∈ key :: keys' ∨ k' ∈ Index.crawlSet q).
    { intros k' Hk'. rewrite Hc in Hk'. apply elem_of_union in Hk' as [Hk'|Hk'].
      - apply elem_of_singleton in Hk' as ->. left. by left.
      - by right. }
    intros k k' [->|Hk]%elem_of_cons Hk'.
    + apply elem_of_keysOf in Hk' as (uri & Huri & He).
      destruct Hadds as (_ & _ & Hall).
      destruct (Hall uri k' Huri He) as [Hin|Hin]; [|by apply Hold].
      left. right. by apply Hqueue.
    + destruct (Hlinks k k' Hk Hk') as [Hin|Hin]; [|by apply Hold].
      left. by right.
Qed.

Lemma index_exhaust_within world options indexDrive indexMounts (R : Key → Prop) fuel :
  (∀ k k', R k → k' ∈ keysOf (indexLinksOf world k) → R k') →
  ∀ q mounted keys qn m,
    Index.exhaust fuel world options indexDrive indexMounts q mounted
      = Some (keys, qn, m) →
    (∀ k, k ∈ Index.queue q → R k) →
    ∀ k, k ∈ keys → R k.
Proof.
  intros Hclosed.
  induction fuel as [|fuel IH]; intros q mounted keys qn m Hrun HR; [done|].
  rewrite index_exhaust_S in Hrun.
  destruct (Index.next q) as [[key q1]|] eqn:Hnext.
  2:{ injection Hrun as <- <- <-. intros k Hk. by apply elem_of_nil in Hk. }
  destruct (Index.exhaust fuel _ _ _ _ _ _) as [[[keys' qn'] m']|] eqn:Hrest; [|done].
  injection Hrun as <- <- <-.
  apply index_next_Some in Hnext as [Hq Hc].
  destruct (index_crawl_spec world key q1) as (new & Hcrawl & Hadds).
  assert (Hkey : R key) by (apply HR; rewrite Hq; apply elem_of_app; right; by left).
  intros k [->|Hk]%elem_of_cons; [done|].
  revert k Hk. eapply IH; [exact Hrest|].
  rewrite Hcrawl. cbn [Index.queue]. intros k [Hk|Hk]%elem_of_app.
  - apply HR. rewrite Hq. apply elem_of_app. by left.
  - apply (addsTo_elem_of _ _ _ _ k Hadds) in Hk as (Hk & _).
    by apply Hclosed with key.
Qed.

Lemma cli_exhaustQueue_covers client fuel :
  ∀ m keys mn,
    Cli.exhaustQueue fuel client m = Some (keys, mn) →
    (∀ k, k ∈ Cli.queue m → k ∈ keys)
    ∧ (∀ k k', k ∈ keys → k' ∈ keysOf (cliLinksOf client k) →
         k' ∈ keys ∨ k' ∈ Cli.crawled m).
Proof.
  induction fuel as [|fuel IH]; intros m keys mn Hrun; [done|].
  rewrite cli_exhaustQueue_S in Hrun.
  destruct (pop (Cli.queue m)) as [[key rest]|] eqn:Hpop.
  2:{ injection Hrun as <- <-. apply pop_None in Hpop. rewrite Hpop. split.
      - intros k Hk. by apply elem_of_nil in Hk.
      - intros k k' Hk. by apply elem_of_nil in Hk. }
  destruct (Cli.exhaustQueue fuel _ _) as [[keys' mn']|] eqn:Hrest; [|done].
  injection Hrun as <- <-. apply pop_Some in Hpop.
  destruct (cli_crawlHyper_spec client key
              {| Cli.crawled := Cli.crawled m; Cli.queue := rest |})
    as (new & Hcrawl & Hadds).
  apply IH in Hrest as [Hqueue Hlinks].
  rewrite Hcrawl in Hqueue, Hlinks. cbn [Cli.queue Cli.crawled] in *.
  split.
  - intros k Hk. rewrite Hpop in Hk. apply elem_of_app in Hk as [Hk|Hk].
    + right. apply Hqueue, elem_of_app. by left.
    + apply list_elem_of_singleton in Hk as ->. by left.
  - assert (Hold : ∀ k', k' ∈ ({[key]} ∪ Cli.crawled m : gset Key) →
                     k' ∈ key :: keys' ∨ k' ∈ Cli.crawled m).
    { intros k' [Hk'|Hk']%elem_of_union.
      - apply elem_of_singleton in Hk' as ->. left. by left.
      - by right. }
    intros k k' [->|Hk]%elem_of_cons Hk'.
    + apply elem_of_keysOf in Hk' as (uri & Huri & He).
      destruct Hadds as (_ & _ & Hall).
      destruct (Hall uri k' Huri He) as [Hin|Hin]; [|by right].
      left. right. by apply Hqueue.
    + destruct (Hlinks k k' Hk Hk') as [Hin|Hin]; [|by apply Hold].
      left. by right.
Qed.

Lemma cli_exhaustQueue_within client (R : Key → Prop) fuel :
  (∀ k k', R k → k' ∈ keysOf (cliLinksOf client k) → R k') →
  ∀ m keys mn,
    Cli.exhaustQueue fuel client m = Some (keys, mn) →
    (∀ k, k ∈ Cli.queue m → R k) →
    ∀ k, k ∈ keys → R k.
Proof.
  intros Hclosed.
  induction fuel as [|fuel IH]; intros m keys mn Hrun HR; [done|].
  rewrite cli_exhaustQueue_S in Hrun.
  destruct (pop (Cli.queue m)) as [[key rest]|] eqn:Hpop.
  2:{ injection Hrun as <- <-. intros k Hk. by apply elem_of_nil in Hk. }
  destruct (Cli.exhaustQueue fuel _ _) as [[keys' mn']|] eqn:Hrest; [|done].
  injection Hrun as <- <-. apply pop_Some in Hpop.
  destruct (cli_crawlHyper_spec client key
              {| Cli.crawled := Cli.crawled m; Cli.queue := rest |})
    as (new & Hcrawl & Hadds). cbn [Cli.queue Cli.crawled] in Hadds.
  assert (Hkey : R key) by (apply HR; rewrite Hpop; apply elem_of_app; right; by left).
  intros k [->|Hk]%elem_of_cons; [done|].
  revert k Hk. eapply IH; [exact Hrest|].
  rewrite Hcrawl. cbn [Cli.queue]. intros k [Hk|Hk]%elem_of_app.
  - apply HR. rewrite Hpop. apply elem_of_app. by left.
  - apply (addsTo_elem_of _ _ _ _ k Hadds) in Hk as (Hk & _).
    by apply Hclosed with key.
Qed.

Lemma index_seed_queue cwd k :
  k ∈ Index.queue (Index.add Index.newCrawlQueue [cwd]).2 ↔ k ∈ omap extractKey [cwd].
Proof.
  destruct (index_add_spec Index.newCrawlQueue [cwd]) as (new & -> & Hadds).
  cbn [snd Index.queue Index.newCrawlQueue app] in *.
  rewrite (addsTo_elem_of _ _ _ _ k Hadds). unfold keysOf.
  rewrite elem_of_list_to_set. split; [by intros (? & _)|].
  intros Hk. split; [done|]. split.
  - intros H. by apply elem_of_nil in H.
  - apply not_elem_of_empty.
Qed.

Lemma index_run_reachable fuel world cwd options keys q m :
  Index.pleco fuel world cwd options = Some (Index.Finished keys q m) →
  ∀ k, k ∈ keys ↔ reachable (indexLinksOf world) (omap extractKey [cwd]) k.
Proof.
  unfold Index.pleco. destruct (Index.version options); [done|].
  destruct (world cwd) as [indexDrive|]; [|done].
  destruct (readdir indexDrive) as [top|]; [|done]. cbv zeta.
  destruct (Index.exhaust _ _ _ _ _ _ _) as [[[keys' q'] m']|] eqn:Hrun; [|done].
  intros [= <- <- <-] k. split.
  - revert k. eapply index_exhaust_within; [| exact Hrun |].
    + intros k1 k2 Hk1 Hk2. by eapply reachable_link.
    + intros k1 Hk1. apply reachable_seed. by apply index_seed_queue.
  - apply index_exhaust_covers in Hrun as [Hqueue Hlinks].
    induction 1 as [k1 Hk1|k1 k2 _ IH Hk2].
    + by apply Hqueue, index_seed_queue.
    + destruct (Hlinks k1 k2 IH Hk2) as [Hin|Hin]; [done|].
      destruct (index_add_spec Index.newCrawlQueue [cwd]) as (new & Heq & _).
      rewrite Heq in Hin. by apply not_elem_of_empty in Hin.
Qed.


(** X1: when [pleco] ends, the keys it has crawled are the keys that can
    be reached from the key of the working directory, where a drive leads to
    every key that its scrapable files and its mounts name. *)
Theorem index_crawls_what_is_reachable fuel world cwd options keys q m :
  Index.pleco fuel world cwd options = Some (Index.Finished keys q m) →
  ∀ k, k ∈ keys ↔ reachable (indexLinksOf world) (omap extractKey [cwd]) k.
Proof. apply index_run_reachable. Qed.

Lemma cycle_index_run :
  ∃ fuel q m,
    Index.pleco fuel (accessorOf cycleGraph) cwdA plain
    = Some (Index.Finished [keyA; keyB] q m).
Proof.
  destruct (index_cycle (accessorOf cycleGraph) cwdA plain
              (linkPage [keyB]) [js "index.html"] keyA keyB
              (linkPage [keyB]) (linkPage [keyA]))
    as (fuel & q & m & Hrun & _).
  1-6: vm_compute; reflexivity.
  1-2: apply namesJust_intro; vm_compute; reflexivity.
  - vm_compute. discriminate.
  - by exists fuel, q, m.
Qed.

Lemma cycle_cli_run :
  ∃ fuel m,
    Cli.main fuel (clientOf noPages cycleGraph)
      [Cli.ArgString (js "hyper://" ++ keyA)]
    = Some (Cli.Finished [keyA; keyB] m).
Proof.
  destruct (cli_cycle (clientOf noPages cycleGraph) (js "hyper://" ++ keyA) keyA keyB
              (linkPage [keyB]) (linkPage [keyA]))
    as (fuel & m & Hrun & _).
  1-4: vm_compute; reflexivity.
  1-2: apply namesJust_intro; vm_compute; reflexivity.
  - vm_compute. discriminate.
  - by exists fuel, m.
Qed.

(** [index_crawls_what_is_reachable] at the cycle of the two sample drives. *)
Lemma index_crawls_what_is_reachable_witness :
  reachable (indexLinksOf (accessorOf cycleGraph)) (omap extractKey [cwdA]) keyB.
Proof.
  destruct cycle_index_run as (fuel & q & m & Hrun).
  apply (proj1 (index_crawls_what_is_reachable _ _ _ _ _ _ _ Hrun keyB)).
  right. left.
Defined.

(** ** The seeds of the daemon client *)

Lemma cli_exhaustInput_add client argv m :
  Cli.memoryOf (Cli.exhaustInput client argv m)
  = (Cli.addQueue m (seedLinks client argv)).2.
Proof.
  revert m; induction argv as [|[uri|] argv IH]; intros m.
  - symmetry. apply cli_addQueue_nil.
  - rewrite cli_exhaustInput_cons, IH. unfold seedLinks. cbn [stringsOf flat_map].
    rewrite <- cli_addQueue_app. f_equal. f_equal.
    destruct (matches HTTP_SCHEME uri).
    + unfold Cli.crawlHttp. destruct (Cli.fetch client uri) as [text|]; [reflexivity|].
      symmetry. apply cli_addQueue_nil.
    + destruct (matches HYPER_SCHEME uri); [reflexivity|].
      symmetry. apply cli_addQueue_nil.
  - symmetry. apply cli_addQueue_nil.
Qed.

Lemma cli_seed_queue client argv k :
  k ∈ Cli.queue (Cli.memoryOf (Cli.exhaustInput client argv Cli.emptyMemory))
  ↔ k ∈ omap extractKey (seedLinks client argv).
Proof.
  rewrite cli_exhaustInput_add.
  destruct (cli_addQueue_spec Cli.emptyMemory (seedLinks client argv))
    as (new & -> & Hadds).
  cbn [snd Cli.queue Cli.crawled Cli.emptyMemory app] in *.
  rewrite (addsTo_elem_of _ _ _ _ k Hadds). unfold keysOf.
  rewrite elem_of_list_to_set. split; [by intros (? & _)|].
  intros Hk. split; [done|]. split.
  - intros H. by apply elem_of_nil in H.
  - apply not_elem_of_empty.
Qed.

Lemma cli_run_reachable fuel client argv keys mn :
  Cli.main fuel client argv = Some (Cli.Finished keys mn) →
  ∀ k, k ∈ keys ↔
       reachable (cliLinksOf client) (omap extractKey (seedLinks client argv)) k.
Proof.
  intros Hrun%cli_main_Finished k. split.
  - revert k. eapply cli_exhaustQueue_within; [| exact Hrun |].
    + intros k1 k2 Hk1 Hk2. by eapply reachable_link.
    + intros k1 Hk1. apply reachable_seed. by apply cli_seed_queue.
  - apply cli_exhaustQueue_covers in Hrun as [Hqueue Hlinks].
    induction 1 as [k1 Hk1|k1 k2 _ IH Hk2].
    + by apply Hqueue, cli_seed_queue.
    + destruct (Hlinks k1 k2 IH Hk2) as [Hin|Hin]; [done|].
      rewrite cli_exhaustInput_crawled in Hin. by apply not_elem_of_empty in Hin.
Qed.

(** X2: when [main] ends, the keys it has crawled are the keys that can be
    reached from the keys of the seed input, where a drive leads to every
    key that its scrapable files name. *)
Theorem cli_crawls_what_is_reachable fuel client argv keys mn :
  Cli.main fuel client argv = Some (Cli.Finished keys mn) →
  ∀ k, k ∈ keys ↔
       reachable (cliLinksOf client) (omap extractKey (seedLinks client argv)) k.
Proof. apply cli_run_reachable. Qed.

(** [cli_crawls_what_is_reachable] at the cycle of the two sample drives. *)
Lemma cli_crawls_what_is_reachable_witness :
  reachable (cliLinksOf (clientOf noPages cycleGraph))
    (omap extractKey
       (seedLinks (clientOf noPages cycleGraph) [Cli.ArgString (js "hyper://" ++ keyA)]))
    keyB.
Proof.
  destruct cycle_cli_run as (fuel & m & Hrun).
  apply (proj1 (cli_crawls_what_is_reachable _ _ _ _ _ Hrun keyB)).
  right. left.
Defined.

(** ** Keys are valid *)

Lemma reachable_isKey (links : Key → list Str) (seeds : list Key) (k : Key) :
  (∀ s, s ∈ seeds → isKey s = true) → reachable links seeds k → isKey k = true.
Proof.
  intros Hseeds. induction 1 as [k Hk|k k' _ _ Hk']; [by apply Hseeds|].
  apply elem_of_keysOf in Hk' as (uri & _ & He). by eapply extractKey_isKey.
Qed.

Lemma omap_extractKey_isKey (uris : list Str) (k : Key) : k ∈ omap extractKey uris → isKey k = true.
Proof.
  intros (uri & _ & He)%list_elem_of_omap. by eapply extractKey_isKey.
Qed.

(** X3: every key that either program hands to its drive accessor is a
    string of 64 lowercase hex digits. *)
Theorem crawled_keys_are_valid :
  (∀ fuel world cwd options keys q m,
     Index.pleco fuel world cwd options = Some (Index.Finished keys q m) →
     ∀ k, k ∈ keys → isKey k = true)
  ∧ (∀ fuel client argv keys mn,
       Cli.main fuel client argv = Some (Cli.Finished keys mn) →
       ∀ k, k ∈ keys → isKey k = true).
Proof.
  split.
  - intros fuel world cwd options keys q m Hrun k Hk.
    apply (index_run_reachable fuel world cwd options keys q m Hrun) in Hk.
    eapply reachable_isKey; [|exact Hk]. apply omap_extractKey_isKey.
  - intros fuel client argv keys mn Hrun k Hk.
    apply (cli_run_reachable fuel client argv keys mn Hrun) in Hk.
    eapply reachable_isKey; [|exact Hk]. apply omap_extractKey_isKey.
Qed.

(** [crawled_keys_are_valid] at the cycle of the two sample drives, for both
    programs. *)
Lemma crawled_keys_are_valid_witness : isKey keyB = true ∧ isKey keyA = true.
Proof.
  split.
  - destruct cycle_index_run as (fuel & q & m & Hrun).
    apply (proj1 crawled_keys_are_valid _ _ _ _ _ _ _ Hrun keyB). right; left.
  - destruct cycle_cli_run as (fuel & m & Hrun).
    apply (proj2 crawled_keys_are_valid _ _ _ _ _ Hrun keyA). left.
Defined.

(** ** What the final messages count *)

Lemma size_list_to_set_le (l : list Key) : size (list_to_set l : gset Key) ≤ length l.
Proof.
  induction l as [|x l IH].
  - cbn [list_to_set foldr length]. by rewrite size_empty.
  - cbn [list_to_set foldr length]. rewrite size_union_alt, size_singleton.
    pose proof (subseteq_size (list_to_set l ∖ {[x]}) (list_to_set l : gset Key)) as H.
    assert (list_to_set l ∖ {[x]} ⊆ (list_to_set l : gset Key)) by set_solver.
    specialize (H ltac:(done)). lia.
Qed.

(** X4: when [pleco] ends, the number it reports as found, [queue.crawled],
    is the number of keys it has crawled, and [queue.size] is 0. When [main]
    ends, [crawled] holds just the keys that were crawled, so the number it
    reports is the number of different keys, at most the number of crawls,
    and [queue] is empty. *)
Theorem found_counts_crawled_keys :
  (∀ fuel world cwd options keys q m,
     Index.pleco fuel world cwd options = Some (Index.Finished keys q m) →
     Index.crawled q = length keys ∧ Index.size q = 0)
  ∧ (∀ fuel client argv keys mn,
       Cli.main fuel client argv = Some (Cli.Finished keys mn) →
       Cli.crawled mn = list_to_set keys
       ∧ size (Cli.crawled mn) ≤ length keys
       ∧ length (Cli.queue mn) = 0).
Proof.
  split.
  - intros fuel world cwd options keys q m.
    unfold Index.pleco. destruct (Index.version options); [done|].
    destruct (world cwd) as [indexDrive|]; [|done].
    destruct (readdir indexDrive) as [top|]; [|done]. cbv zeta.
    destruct (Index.exhaust _ _ _ _ _ _ _) as [[[keys' q'] m']|] eqn:Hrun; [|done].
    intros [= <- <- <-].
    apply index_exhaust_sound in Hrun as (Hempty & _ & Hnd & _ & Hset);
      [|apply indexInv_add, indexInv_new].
    destruct (index_add_spec Index.newCrawlQueue [cwd]) as (new & Heq & _).
    rewrite Heq in Hset. cbn [snd Index.crawlSet Index.newCrawlQueue] in Hset.
    unfold Index.crawled, Index.size. rewrite Hset, Hempty.
    rewrite (right_id_L ∅ (∪)). split; [|done]. by apply size_list_to_set.
  - intros fuel client argv keys mn Hrun. apply cli_main_Finished in Hrun.
    apply cli_exhaustQueue_sound in Hrun as [Hempty Hset].
    rewrite cli_exhaustInput_crawled in Hset.
    cbn [Cli.crawled Cli.emptyMemory] in Hset.
    rewrite (right_id_L ∅ (∪)) in Hset. rewrite Hset, Hempty.
    split; [done|]. split; [apply size_list_to_set_le | done].
Qed.

(** [found_counts_crawled_keys] at the cycle of the two sample drives. *)
Lemma found_counts_crawled_keys_witness :
  ∃ q, Index.crawled q = 2 ∧ Index.size q = 0.
Proof.
  destruct cycle_index_run as (fuel & q & m & Hrun). exists q.
  exact (proj1 found_counts_crawled_keys _ _ _ _ _ _ _ Hrun).
Defined.

(** ** How often the daemon client crawls a key *)

Lemma cli_once_when_crawled client key fuel :
  ∀ m keys mn,
    Cli.exhaustQueue fuel client m = Some (keys, mn) →
    NoDup (Cli.queue m) → key ∈ Cli.crawled m →
    crawls key keys ≤ 1.
Proof.
  induction fuel as [|fuel IH]; intros m keys mn Hrun Hnd Hc; [done|].
  rewrite cli_exhaustQueue_S in Hrun.
  destruct (pop (Cli.queue m)) as [[k rest]|] eqn:Hpop.
  2:{ injection Hrun as <- <-. unfold crawls; simpl; lia. }
  destruct (Cli.exhaustQueue fuel _ _) as [[keys' mn']|] eqn:Hrest; [|done].
  injection Hrun as <- <-. apply pop_Some in Hpop. rewrite Hpop in Hnd.
  destruct (cli_crawlHyper_spec client k
              {| Cli.crawled := Cli.crawled m; Cli.queue := rest |})
    as (new & Hcrawl & Hadds). cbn [Cli.crawled Cli.queue] in Hadds.
  pose proof (addsTo_NoDup _ _ _ _ Hadds) as Hnd'.
  apply NoDup_app in Hnd as (Hndrest & Hnot & _).
  rewrite crawls_cons. case_bool_decide as Hk.
  - subst k. rewrite (crawls_none key keys'); [lia|].
    eapply cli_never_again; [exact Hrest | |]; rewrite Hcrawl; cbn [Cli.crawled Cli.queue].
    + apply elem_of_union. by right.
    + intros [Hin|Hin]%elem_of_app.
      * eapply Hnot; [exact Hin | by left].
      * apply (addsTo_elem_of _ _ _ _ key Hadds) in Hin as (_ & _ & Hnc). done.
  - simpl. eapply IH; [exact Hrest | |]; rewrite Hcrawl; cbn [Cli.crawled Cli.queue].
    + by apply Hnd'.
    + apply elem_of_union. by right.
Qed.

Lemma cli_twice_at_most client key fuel :
  ∀ m keys mn,
    Cli.exhaustQueue fuel client m = Some (keys, mn) →
    NoDup (Cli.queue m) →
    crawls key keys ≤ 2.
Proof.
  induction fuel as [|fuel IH]; intros m keys mn Hrun Hnd; [done|].
  rewrite cli_exhaustQueue_S in Hrun.
  destruct (pop (Cli.queue m)) as [[k rest]|] eqn:Hpop.
  2:{ injection Hrun as <- <-. unfold crawls; simpl; lia. }
  destruct (Cli.exhaustQueue fuel _ _) as [[keys' mn']|] eqn:Hrest; [|done].
  injection Hrun as <- <-. apply pop_Some in Hpop. rewrite Hpop in Hnd.
  destruct (cli_crawlHyper_spec client k
              {| Cli.crawled := Cli.crawled m; Cli.queue := rest |})
    as (new & Hcrawl & Hadds). cbn [Cli.crawled Cli.queue] in Hadds.
  pose proof (addsTo_NoDup _ _ _ _ Hadds) as Hnd'.
  apply NoDup_app in Hnd as (Hndrest & _ & _).
  rewrite crawls_cons. case_bool_decide as Hk.
  - subst k. enough (crawls key keys' ≤ 1) by lia.
    eapply cli_once_when_crawled; [exact Hrest | |]; rewrite Hcrawl;
      cbn [Cli.crawled Cli.queue].
    + by apply Hnd'.
    + apply elem_of_union. left. by apply elem_of_singleton.
  - simpl. eapply IH; [exact Hrest|]. rewrite Hcrawl. cbn [Cli.queue]. by apply Hnd'.
Qed.

(** X5: in one run the daemon client crawls no key more than twice, and
    it crawls a key once at most unless the scrapable files of that key's
    own drive name the key. *)
Theorem cli_crawls_a_key_twice_at_most fuel client argv keys mn key :
  Cli.main fuel client argv = Some (Cli.Finished keys mn) →
  crawls key keys ≤ 2
  ∧ (key ∉ keysOf (cliLinksOf client key) → crawls key keys ≤ 1).
Proof.
  intros Hrun%cli_main_Finished. split.
  - eapply cli_twice_at_most; [exact Hrun|].
    apply cli_exhaustInput_NoDup. constructor.
  - intros Hself. eapply cli_once_unless_self_link; [exact Hself | exact Hrun | |].
    + apply cli_exhaustInput_NoDup. constructor.
    + intros _. rewrite cli_exhaustInput_crawled. apply not_elem_of_empty.
Qed.

(** [cli_crawls_a_key_twice_at_most] at the cycle of the two sample drives. *)
Lemma cli_crawls_a_key_twice_at_most_witness : crawls keyA [keyA; keyB] ≤ 2.
Proof.
  destruct cycle_cli_run as (fuel & m & Hrun).
  exact (proj1 (cli_crawls_a_key_twice_at_most _ _ _ _ _ keyA Hrun)).
Defined.

(** ** Patterns built from literals *)

Lemma matches_true r s : matches r s = true ↔ ∃ i, i ≤ length s ∧ run r s i ≠ [].
Proof.
  unfold matches. destruct (exec r s 0) as [[i e]|] eqn:E.
  - apply exec_Some in E as (Hi & He & _). split; [|done]. intros _.
    exists i. split; [lia|]. intros Hnil. by rewrite Hnil in He.
  - rewrite exec_None in E. split; [done|]. intros (i & Hi & Hrun).
    exfalso. apply Hrun, E. lia.
Qed.

Lemma searchFrom_ext r r' s n i :
  (∀ j, run r s j = run r' s j) → searchFrom r s n i = searchFrom r' s n i.
Proof.
  intros H. revert i; induction n as [|n IH]; intros i; simpl; [done|].
  rewrite H. destruct (run r' s i); [apply IH | done].
Qed.

Lemma matches_ext r r' s : (∀ j, run r s j = run r' s j) → matches r s = matches r' s.
Proof. intros H. unfold matches, exec. by rewrite (searchFrom_ext r r'). Qed.

Lemma flat_map_flat_map {A B C} (f : A → list B) (g : B → list C) l :
  flat_map g (flat_map f l) = flat_map (λ x, flat_map g (f x)) l.
Proof.
  induction l as [|x l IH]; simpl; [done|]. by rewrite flat_map_app, IH.
Qed.

Lemma run_Seq_assoc a b c s i :
  run (Seq a (Seq b c)) s i = run (Seq (Seq a b) c) s i.
Proof. cbn [run]. by rewrite flat_map_flat_map. Qed.

Lemma elem_of_flat_map {A B} (f : A → list B) l y :
  y ∈ flat_map f l ↔ ∃ x, x ∈ l ∧ y ∈ f x.
Proof.
  rewrite list_elem_of_In, in_flat_map. split; intros (x & Hx & Hy); exists x.
  - by rewrite !list_elem_of_In.
  - by rewrite <- !list_elem_of_In.
Qed.

Lemma take_one_lookup (s : Str) i c : take 1 (drop i s) = [c] ↔ s !! i = Some c.
Proof.
  destruct (s !! i) as [x|] eqn:E.
  - rewrite (drop_lookup_cons _ _ _ E). simpl. rewrite take_0.
    split; intros H; by simplify_eq.
  - rewrite drop_ge by (by apply lookup_ge_None). done.
Qed.

Lemma take_app_both (w1 w2 t : Str) :
  take (length (w1 ++ w2)) t = w1 ++ w2 ↔
  take (length w1) t = w1 ∧ take (length w2) (drop (length w1) t) = w2.
Proof.
  revert t; induction w1 as [|a w1 IH]; intros t.
  - simpl. rewrite drop_0. naive_solver.
  - destruct t as [|b t]; simpl; [naive_solver|].
    specialize (IH t). split.
    + intros [= -> H]. apply IH in H as [-> ->]. done.
    + intros [[= -> H1] H2]. f_equal. apply IH. done.
Qed.

Lemma run_words r :
  literal r = true →
  ∀ s i e,
    e ∈ run r s i ↔
    ∃ w, w ∈ words r ∧ take (length w) (drop i s) = w ∧ e = i + length w.
Proof.
  induction r as [| c | | | | | r1 IH1 r2 IH2 | r1 IH1 r2 IH2 | r1 IH1 | ];
    intros Hlit s i e; try discriminate Hlit; cbn [run words].
  - rewrite list_elem_of_singleton. split.
    + intros ->. exists []. split; [by left|]. split; [done | simpl; lia].
    + intros (w & ->%list_elem_of_singleton & _ & ->). simpl. lia.
  - split.
    + intros He. exists [c]. split; [by left|].
      destruct (s !! i) as [x|] eqn:E; [|by apply elem_of_nil in He].
      destruct (N.eqb_spec x c) as [->|]; [|by apply elem_of_nil in He].
      apply list_elem_of_singleton in He as ->.
      split; [by apply take_one_lookup | simpl; lia].
    + intros (w & ->%list_elem_of_singleton & Ht & ->).
      apply take_one_lookup in Ht. rewrite Ht, N.eqb_refl.
      apply list_elem_of_singleton. simpl. lia.
  - cbn [literal] in Hlit. apply andb_prop in Hlit as [H1 H2].
    rewrite elem_of_flat_map. split.
    + intros (m & Hm & He). apply (IH1 H1) in Hm as (w1 & Hw1 & Ht1 & ->).
      apply (IH2 H2) in He as (w2 & Hw2 & Ht2 & ->).
      exists (w1 ++ w2). split; [|split].
      * apply list_elem_of_bind. exists w1. split; [|done].
        apply list_elem_of_bind. exists w2. split; [by left | done].
      * apply take_app_both. split; [done|]. by rewrite drop_drop.
      * rewrite length_app. lia.
    + intros (w & Hw & Ht & ->).
      apply list_elem_of_bind in Hw as (w1 & Hw & Hw1).
      apply list_elem_of_bind in Hw as (w2 & Hw & Hw2).
      apply list_elem_of_singleton in Hw as ->.
      apply take_app_both in Ht as [Ht1 Ht2]. rewrite drop_drop in Ht2.
      exists (i + length w1). split.
      * apply (IH1 H1). by exists w1.
      * apply (IH2 H2). exists w2. split; [done|]. split; [done|].
        rewrite length_app. lia.
  - cbn [literal] in Hlit. apply andb_prop in Hlit as [H1 H2].
    rewrite elem_of_app, (IH1 H1), (IH2 H2). split.
    + intros [(w & Hw & H)|(w & Hw & H)]; exists w;
        (split; [apply elem_of_app; by auto | done]).
    + intros (w & [Hw|Hw]%elem_of_app & H); [left | right]; by exists w.
  - cbn [literal] in Hlit. rewrite elem_of_app, (IH1 Hlit), list_elem_of_singleton.
    split.
    + intros [(w & Hw & H)| ->].
      * exists w. split; [apply elem_of_app; by left | done].
      * exists []. split; [apply elem_of_app; right; by left|].
        split; [done | simpl; lia].
    + intros (w & [Hw|Hw]%elem_of_app & Ht & ->).
      * left. by exists w.
      * apply list_elem_of_singleton in Hw as ->. right. simpl. lia.
Qed.

Lemma nonempty_elem {A} (l : list A) : l ≠ [] ↔ ∃ x, x ∈ l.
Proof.
  destruct l as [|x l]; split; try done.
  - intros (x & Hx). by apply elem_of_nil in Hx.
  - intros _. exists x. by left.
Qed.

(** A pattern [^F], with [F] built from literals, matches the strings
    that start with a word of [F]. *)
Lemma matches_prefix F s :
  literal F = true →
  matches (Seq Bol F) s = true ↔ ∃ w, w ∈ words F ∧ w `prefix_of` s.
Proof.
  intros Hlit. rewrite matches_Bol.
  assert (Hrun : run F s 0 ≠ [] ↔ ∃ w, w ∈ words F ∧ w `prefix_of` s).
  { rewrite nonempty_elem. split.
    - intros (e & He). apply (run_words F Hlit) in He as (w & Hw & Ht & _).
      exists w. split; [done|]. rewrite drop_0 in Ht.
      exists (drop (length w) s). by rewrite <- Ht at 1; rewrite take_drop.
    - intros (w & Hw & k & ->). exists (0 + length w).
      apply (run_words F Hlit). exists w. split; [done|]. split; [|done].
      by rewrite drop_0, take_app_length. }
  rewrite <- Hrun. destruct (run F s 0); split; done.
Qed.

(** A pattern [F$], with [F] built from literals, matches the strings
    that end with a word of [F]. *)
Lemma matches_suffix F s :
  literal F = true →
  matches (Seq F Eol) s = true ↔ ∃ w, w ∈ words F ∧ w `suffix_of` s.
Proof.
  intros Hlit. rewrite matches_true. split.
  - intros (i & Hi & Hrun). apply nonempty_elem in Hrun as (e & He).
    cbn [run] in He. apply elem_of_flat_map in He as (m & Hm & He).
    destruct (Nat.eqb_spec m (length s)) as [->|]; [|by apply elem_of_nil in He].
    apply (run_words F Hlit) in Hm as (w & Hw & Ht & Hlen).
    exists w. split; [done|]. exists (take i s).
    assert (Hw' : drop i s = w).
    { rewrite <- Ht. symmetry. apply take_ge. rewrite length_drop. lia. }
    rewrite <- Hw'. symmetry. apply take_drop.
  - intros (w & Hw & k & ->). exists (length k).
    split; [rewrite length_app; lia|]. apply nonempty_elem.
    exists (length (k ++ w)). cbn [run]. apply elem_of_flat_map.
    exists (length (k ++ w)). split.
    + apply (run_words F Hlit). exists w. split; [done|].
      rewrite drop_app_length, firstn_all, length_app. done.
    + rewrite Nat.eqb_refl. by left.
Qed.

(** ** Which files are scraped *)

Lemma prefix_iff_take (w s : Str) : w `prefix_of` s ↔ take (length w) s = w.
Proof.
  split.
  - intros [k ->]. by rewrite take_app_length.
  - intros H. exists (drop (length w) s). rewrite <- H at 1. by rewrite take_drop.
Qed.

Lemma matches_SCRAPABLE_EXTS_INDEX path :
  matches SCRAPABLE_EXTS_INDEX path = true ↔ hasScrapableExt path.
Proof.
  unfold SCRAPABLE_EXTS_INDEX, hasScrapableExt.
  erewrite matches_ext by (intros; apply run_Seq_assoc).
  rewrite matches_suffix by reflexivity.
  match goal with |- context [words ?F] =>
    replace (words F) with scrapableExts by (vm_compute; reflexivity) end.
  reflexivity.
Qed.

Lemma matches_SCRAPABLE_EXTS path :
  matches SCRAPABLE_EXTS path = true ↔ hasScrapableExt path.
Proof.
  unfold SCRAPABLE_EXTS, hasScrapableExt.
  erewrite matches_ext by (intros; apply run_Seq_assoc).
  rewrite matches_suffix by reflexivity.
  match goal with |- context [words ?F] =>
    replace (words F)
      with (js <$> [".html"; ".htm"; ".md"; ".json"; ".xml"; ".js"; ".css"]%string)
      by (vm_compute; reflexivity) end.
  unfold scrapableExts. split; intros (w & Hw & Hs); exists w; (split; [|done]);
    cbn [fmap list_fmap] in *; rewrite !elem_of_cons in *; tauto.
Qed.

Lemma matches_HTTP_SCHEME uri :
  matches HTTP_SCHEME uri = true ↔
  js "http:" `prefix_of` uri ∨ js "https:" `prefix_of` uri.
Proof.
  unfold HTTP_SCHEME. rewrite matches_prefix by reflexivity.
  match goal with |- context [words ?F] =>
    replace (words F) with [js "https:"; js "http:"] by (vm_compute; reflexivity) end.
  split.
  - intros (w & Hw & Hp). rewrite !elem_of_cons in Hw.
    destruct Hw as [->|[->|Hw]]; [by right | by left | by apply elem_of_nil in Hw].
  - intros [H|H]; eexists; (split; [|exact H]); rewrite !elem_of_cons; auto.
Qed.

Lemma matches_HYPER_SCHEME_prefix uri :
  matches HYPER_SCHEME uri = true ↔ js "hyper:" `prefix_of` uri.
Proof.
  rewrite matches_HYPER_SCHEME, bool_decide_eq_true, prefix_iff_take. reflexivity.
Qed.

Lemma bool_false_iff (b : bool) (P : Prop) : (b = true ↔ P) → ¬ P → b = false.
Proof. intros H HP. destruct b; [|done]. exfalso. by apply HP, H. Qed.

Lemma cli_exhaustInput_app client l1 l2 m :
  Cli.exhaustInput client (l1 ++ l2) m
  = match Cli.exhaustInput client l1 m with
    | Cli.Returns m1 => Cli.exhaustInput client l2 m1
    | Cli.Throws m1 => Cli.Throws m1
    end.
Proof.
  revert m; induction l1 as [|[uri|] l1 IH]; intros m; [reflexivity| |reflexivity].
  rewrite <- app_comm_cons, !cli_exhaustInput_cons. apply IH.
Qed.

Lemma cli_exhaustInput_Number client before after m :
  Cli.exhaustInput client (before ++ Cli.ArgNumber :: after) m
  = Cli.Throws (Cli.memoryOf (Cli.exhaustInput client before m)).
Proof.
  rewrite cli_exhaustInput_app.
  by destruct (Cli.exhaustInput client before m).
Qed.

Lemma cli_exhaustInput_Returns_iff client argv m :
  (∃ m', Cli.exhaustInput client argv m = Cli.Returns m') ↔ Cli.ArgNumber ∉ argv.
Proof.
  split.
  - intros [m' H] Hin. apply list_elem_of_split in Hin as (before & after & ->).
    by rewrite cli_exhaustInput_Number in H.
  - intros Hnot. destruct (Cli.exhaustInput client argv m) as [m'|m'] eqn:H.
    + by exists m'.
    + by apply cli_exhaustInput_Throws in H.
Qed.

Lemma isKey_head_hex x key : isKey (x :: key) = true → isHex x = true.
Proof.
  unfold isKey. intros [_ H]%andb_prop. simpl in H. by apply andb_prop in H as [? _].
Qed.

Lemma isKey_no_scheme key (scheme : string) x rest :
  isKey key = true → js scheme = x :: rest → isHex x = false →
  ¬ js scheme `prefix_of` key.
Proof.
  intros Hk Hs Hx [k ->]. rewrite Hs in Hk. simpl in Hk.
  apply isKey_head_hex in Hk. congruence.
Qed.

(** X6: [exhaustInput] passes over every argument that is a string and
    starts with none of [http:], [https:] and [hyper:], so a bare key that
    is in [argv._] as a string is not queued, although [extractKey] would
    take it; and it passes over an HTTP URL that cannot be fetched. An
    argument that is a Number is not passed over: there [exhaustInput]
    throws, with the memory that the arguments before it have left, the
    arguments after it are not read, and [main] is left with no drive
    crawled, whatever the other arguments are. *)
Theorem cli_skips_other_arguments :
  (∀ client before uri after m,
     ¬ js "http:" `prefix_of` uri → ¬ js "https:" `prefix_of` uri →
     ¬ js "hyper:" `prefix_of` uri →
     Cli.exhaustInput client (before ++ Cli.ArgString uri :: after) m
     = Cli.exhaustInput client (before ++ after) m)
  ∧ (∀ client key m,
       isKey key = true →
       extractKey key = Some key
       ∧ Cli.exhaustInput client [Cli.ArgString key] m = Cli.Returns m)
  ∧ (∀ client before url after m,
       js "http:" `prefix_of` url ∨ js "https:" `prefix_of` url →
       Cli.fetch client url = None →
       Cli.exhaustInput client (before ++ Cli.ArgString url :: after) m
       = Cli.exhaustInput client (before ++ after) m)
  ∧ (∀ client before after m,
       Cli.exhaustInput client (before ++ Cli.ArgNumber :: after) m
       = Cli.Throws (Cli.memoryOf (Cli.exhaustInput client before m)))
  ∧ (∀ fuel client before after,
       Cli.main fuel client (before ++ Cli.ArgNumber :: after)
       = Some (Cli.Aborted
                 (Cli.memoryOf (Cli.exhaustInput client before Cli.emptyMemory)))
       ∧ Cli.crawled (Cli.memoryOf (Cli.exhaustInput client before Cli.emptyMemory))
         = ∅).
Proof.
  assert (Hskip : ∀ client uri m,
             ¬ js "http:" `prefix_of` uri → ¬ js "https:" `prefix_of` uri →
             ¬ js "hyper:" `prefix_of` uri →
             Cli.inputStep client uri m = m).
  { intros client uri m H1 H2 H3. unfold Cli.inputStep.
    rewrite (bool_false_iff _ _ (matches_HTTP_SCHEME uri)) by tauto.
    by rewrite (bool_false_iff _ _ (matches_HYPER_SCHEME_prefix uri)). }
  assert (Hpass : ∀ client before uri after m,
             (∀ m1, Cli.inputStep client uri m1 = m1) →
             Cli.exhaustInput client (before ++ Cli.ArgString uri :: after) m
             = Cli.exhaustInput client (before ++ after) m).
  { intros client before uri after m Hstep. rewrite !cli_exhaustInput_app.
    destruct (Cli.exhaustInput client before m) as [m1|m1]; [|reflexivity].
    cbn [Cli.exhaustInput]. by rewrite Hstep. }
  split; [|split; [|split; [|split]]].
  - intros client before uri after m H1 H2 H3.
    apply Hpass. intros m1. by apply Hskip.
  - intros client key m Hk. split; [by apply extractKey_of_key|].
    cbn [Cli.exhaustInput]. f_equal.
    apply Hskip; eapply isKey_no_scheme; try exact Hk; reflexivity.
  - intros client before url after m Hhttp Hfetch.
    apply Hpass. intros m1. unfold Cli.inputStep.
    apply matches_HTTP_SCHEME in Hhttp. rewrite Hhttp.
    unfold Cli.crawlHttp. by rewrite Hfetch.
  - intros client before after m. apply cli_exhaustInput_Number.
  - intros fuel client before after. split; [|apply cli_exhaustInput_crawled].
    unfold Cli.main. by rewrite cli_exhaustInput_Number.
Qed.

(** [cli_skips_other_arguments] at a bare key, at a page that cannot be
    fetched, and at a Number before the address of a drive. *)
Lemma cli_skips_other_arguments_witness :
  Cli.exhaustInput (clientOf noPages cycleGraph) [Cli.ArgString keyA] Cli.emptyMemory
  = Cli.Returns Cli.emptyMemory
  ∧ Cli.exhaustInput (clientOf noPages cycleGraph)
      [Cli.ArgString (js "https://example.org/"); Cli.ArgString (js "hyper://" ++ keyA)]
      Cli.emptyMemory
    = Cli.exhaustInput (clientOf noPages cycleGraph)
        [Cli.ArgString (js "hyper://" ++ keyA)] Cli.emptyMemory
  ∧ Cli.main 3 (clientOf noPages cycleGraph)
      [Cli.ArgNumber; Cli.ArgString (js "hyper://" ++ keyA)]
    = Some (Cli.Aborted Cli.emptyMemory).
Proof.
  split; [|split].
  - apply (proj1 (proj2 cli_skips_other_arguments)). vm_compute. reflexivity.
  - apply (proj1 (proj2 (proj2 cli_skips_other_arguments)) _ []).
    + right. exists (js "//example.org/"). reflexivity.
    + reflexivity.
  - apply (proj2 (proj2 (proj2 (proj2 cli_skips_other_arguments))) 3 _ []).
Defined.

(** X7: [exhaustInput] returns when no argument is a Number, and throws
    otherwise. Either way it leaves the memory that one [addQueue] of the
    seed strings leaves: the addresses of each page that could be fetched
    and each [hyper:] URI, in the order of the arguments, among the
    arguments before the first Number. From the empty memory it leaves
    nothing crawled and a queue without repetition that holds just the keys
    of those strings, so when it returns, the number that [main] reports as
    queued is the number of different keys among them. *)
Theorem cli_seed_input client argv :
  (∀ m, (∃ m', Cli.exhaustInput client argv m = Cli.Returns m')
        ↔ Cli.ArgNumber ∉ argv)
  ∧ (∀ m, Cli.memoryOf (Cli.exhaustInput client argv m)
          = (Cli.addQueue m (seedLinks client argv)).2)
  ∧ Cli.crawled (Cli.memoryOf (Cli.exhaustInput client argv Cli.emptyMemory)) = ∅
  ∧ NoDup (Cli.queue (Cli.memoryOf (Cli.exhaustInput client argv Cli.emptyMemory)))
  ∧ (∀ k, k ∈ Cli.queue (Cli.memoryOf (Cli.exhaustInput client argv Cli.emptyMemory))
          ↔ k ∈ omap extractKey (seedLinks client argv))
  ∧ length (Cli.queue (Cli.memoryOf (Cli.exhaustInput client argv Cli.emptyMemory)))
    = size (keysOf (seedLinks client argv)).
Proof.
  split; [intros m; apply cli_exhaustInput_Returns_iff|].
  split; [intros m; apply cli_exhaustInput_add|].
  split; [apply cli_exhaustInput_crawled|].
  assert (Hnd : NoDup (Cli.queue (Cli.memoryOf
                                    (Cli.exhaustInput client argv Cli.emptyMemory))))
    by (apply cli_exhaustInput_NoDup; constructor).
  split; [exact Hnd|]. split; [intros k; apply cli_seed_queue|].
  rewrite <- (size_list_to_set (C:=gset Key)) by exact Hnd. f_equal.
  apply set_eq. intros k. unfold keysOf. rewrite !elem_of_list_to_set.
  apply cli_seed_queue.
Qed.

(** ** Which paths [index.js] leaves out *)

Lemma run_ignored_names s j :
  run (Alt (Lit "node_modules") (Seq Dot (Lit "git"))) s j ≠ [] ↔
  startsIgnored (drop j s).
Proof.
  cbn [run]. unfold Lit. rewrite run_LitStr. unfold startsIgnored.
  rewrite prefix_iff_take. change (length (js "node_modules")) with 12.
  case_bool_decide as Hnm.
  { split; [by left | done]. }
  cbn [app]. split.
  - intros Hrun. right.
    destruct (s !! j) as [x|] eqn:E; [|done].
    destruct (lineTerminator x) eqn:Hx; [done|].
    cbn [flat_map] in Hrun. rewrite app_nil_r, run_LitStr in Hrun.
    change (length (js "git")) with 3 in Hrun.
    case_bool_decide as Hgit; [|done].
    exists x, (drop 3 (drop (S j) s)). split; [|done].
    rewrite (drop_lookup_cons _ _ _ E). f_equal.
    rewrite <- Hgit at 1. by rewrite take_drop.
  - intros [H|(x & rest & Heq & Hx)]; [done|].
    assert (E : s !! j = Some x).
    { rewrite <- (Nat.add_0_r j), <- lookup_drop, Heq. done. }
    rewrite E, Hx. cbn [flat_map]. rewrite app_nil_r, run_LitStr.
    rewrite (drop_lookup_cons _ _ _ E) in Heq. injection Heq as Heq.
    rewrite Heq. change (take (length (js "git")) (js "git" ++ rest)) with (js "git").
    by rewrite bool_decide_eq_true_2.
Qed.

Lemma matches_IGNORED_DIRS path :
  matches IGNORED_DIRS path = true ↔ ignoredPath path.
Proof.
  rewrite matches_true. unfold IGNORED_DIRS, ignoredPath. split.
  - intros (i & Hi & Hrun). apply nonempty_elem in Hrun as (e & He).
    cbn [run] in He. apply elem_of_flat_map in He as (j & Hj & He).
    assert (Hst : startsIgnored (drop j path)).
    { apply run_ignored_names, nonempty_elem. by exists e. }
    apply elem_of_app in Hj as [Hj|Hj].
    + destruct (Nat.eqb_spec i 0) as [->|]; [|by apply elem_of_nil in Hj].
      apply list_elem_of_singleton in Hj as ->. left. by rewrite drop_0 in Hst.
    + destruct (path !! i) as [x|] eqn:E; [|by apply elem_of_nil in Hj].
      destruct (N.eqb_spec x 47) as [->|]; [|by apply elem_of_nil in Hj].
      apply list_elem_of_singleton in Hj as ->. right.
      exists (take i path), (drop (S i) path). split; [|done].
      rewrite <- (take_drop i path) at 1. f_equal.
      by rewrite (drop_lookup_cons _ _ _ E).
  - intros [Hst|(pre & t & -> & Hst)].
    + exists 0. split; [lia|]. apply nonempty_elem.
      rewrite <- (drop_0 path) in Hst.
      apply run_ignored_names, nonempty_elem in Hst as (e & He).
      exists e. cbn [run]. apply elem_of_flat_map. exists 0.
      split; [|done]. apply elem_of_app. left. by left.
    + exists (length pre). split; [rewrite length_app; lia|]. apply nonempty_elem.
      assert (Hdrop : drop (S (length pre)) (pre ++ js "/" ++ t) = t).
      { change (js "/" ++ t) with ([47%N] ++ t). rewrite app_assoc.
        replace (S (length pre)) with (length (pre ++ [47%N]))
          by (rewrite length_app; simpl; lia).
        apply drop_app_length. }
      rewrite <- Hdrop in Hst.
      apply run_ignored_names, nonempty_elem in Hst as (e & He).
      exists e. cbn [run]. apply elem_of_flat_map. exists (S (length pre)).
      split; [|done]. apply elem_of_app. right.
      change (js "/" ++ t) with (47%N :: t).
      rewrite list_lookup_middle by done. by left.
Qed.

Lemma filter_sublist {A} (f : A → bool) (l : list A) : List.filter f l `sublist_of` l.
Proof.
  induction l as [|x l IH]; simpl; [done|].
  destruct (f x); [by apply sublist_skip | by apply sublist_cons].
Qed.

Lemma filterScrapable_elem entries entry :
  entry ∈ Index.filterScrapable entries ↔
  entry ∈ entries ∧ hasScrapableExt entry ∧ ¬ ignoredPath entry.
Proof.
  unfold Index.filterScrapable.
  rewrite list_elem_of_In, !filter_In, <- list_elem_of_In.
  rewrite matches_SCRAPABLE_EXTS_INDEX, negb_true_iff.
  rewrite <- matches_IGNORED_DIRS. destruct (matches IGNORED_DIRS entry); naive_solver.
Qed.

(** X8: [filterScrapable] keeps just the entries that end in one of
    [.html], [.htm], [.md], [.xml], [.json], [.js], [.css] and in which
    neither the path nor what follows any of its slashes begins with
    [node_modules] or with one code unit (no line terminator) and [git]; it
    keeps them in the order of the listing. So no file under a directory
    named [node_modules] or [.git], at any depth, is scraped. *)
Theorem filterScrapable_keeps entries :
  (∀ entry,
     entry ∈ Index.filterScrapable entries ↔
     entry ∈ entries ∧ hasScrapableExt entry ∧ ¬ ignoredPath entry)
  ∧ Index.filterScrapable entries `sublist_of` entries
  ∧ (∀ dirs name rest,
       dirs = [] ∨ js "/" `suffix_of` dirs →
       name = js "node_modules" ∨ name = js ".git" →
       dirs ++ name ++ js "/" ++ rest ∉ Index.filterScrapable entries).
Proof.
  split; [apply filterScrapable_elem|]. split.
  - unfold Index.filterScrapable.
    etrans; apply filter_sublist.
  - intros dirs name rest Hdirs Hname Hin.
    apply filterScrapable_elem in Hin as (_ & _ & Hno).
    apply Hno. assert (Hst : startsIgnored (name ++ js "/" ++ rest)).
    { destruct Hname as [->| ->].
      - left. by eexists.
      - right. by exists 46%N, (js "/" ++ rest). }
    destruct Hdirs as [->|[pre ->]].
    + by left.
    + right. exists pre, (name ++ js "/" ++ rest). by rewrite <- app_assoc.
Qed.

(** [filterScrapable_keeps] at a listing of two files. *)
Lemma filterScrapable_keeps_witness :
  js "b.js" ∈ Index.filterScrapable [js "a/node_modules/b.js"; js "b.js"].
Proof.
  apply (proj1 (filterScrapable_keeps [js "a/node_modules/b.js"; js "b.js"])).
  split; [right; left|]. split.
  - exists (js ".js"). split; [do 5 right; left|]. exists (js "b"). reflexivity.
  - intros H. apply matches_IGNORED_DIRS in H. vm_compute in H. discriminate H.
Defined.

(** ** What the crawl of one drive queues *)

Lemma filterMounts_mountKeys drive entries :
  Index.filterMounts drive entries = mountKeys drive entries.
Proof.
  unfold Index.filterMounts, mountKeys.
  enough (H : ∀ acc,
             foldl (λ mounts entry,
                      match stat drive (js "/" ++ entry) with
                      | Some (Some key) => mounts ++ [key]
                      | Some None => mounts
                      | None => mounts
                      end) acc entries
             = acc ++ omap (λ entry, mjoin (stat drive (js "/" ++ entry))) entries)
    by apply (H []).
  induction entries as [|entry entries IH]; intros acc; cbn [foldl omap list_omap].
  - by rewrite app_nil_r.
  - rewrite IH. destruct (stat drive (js "/" ++ entry)) as [[key|]|]; cbn [mjoin option_join].
    + by rewrite <- app_assoc.
    + done.
    + done.
Qed.

Lemma elem_of_mountKeys drive entries key :
  key ∈ mountKeys drive entries ↔
  ∃ entry, entry ∈ entries ∧ stat drive (js "/" ++ entry) = Some (Some key).
Proof.
  unfold mountKeys. rewrite list_elem_of_omap.
  split; intros (entry & He & Hs); exists entry; (split; [done|]).
  - by destruct (stat drive (js "/" ++ entry)) as [[k|]|]; simplify_eq/=.
  - by rewrite Hs.
Qed.

Lemma elem_of_scraped (read : Str → option Str) (scrape : Str → list Str)
      (files : list Str) (uri : Str) :
  uri ∈ flat_map (λ file, default [] (scrape <$> read file)) files ↔
  ∃ file text, file ∈ files ∧ read file = Some text ∧ uri ∈ scrape text.
Proof.
  rewrite elem_of_flat_map. split.
  - intros (file & Hf & Hu). destruct (read file) as [text|] eqn:E.
    + by exists file, text.
    + by apply elem_of_nil in Hu.
  - intros (file & text & Hf & Hr & Hu). exists file. split; [done|]. by rewrite Hr.
Qed.

(** X9: in [index.js] the crawl of a drive comes to one [add] of the
    strings that the drive yields, and these are: every address in a file
    of the listing that [filterScrapable] keeps and that can be read, and
    the key of every mount in the listing, whatever the path of the mount.
    A drive that cannot be got or listed yields none. *)
Theorem index_crawl_queues world key q :
  Index.crawl world key q = (Index.add q (indexLinksOf world key)).2
  ∧ (∀ drive entries uri,
       world key = Some drive → readdirRecursive drive = Some entries →
       uri ∈ indexLinksOf world key ↔
       (∃ entry text,
          entry ∈ entries ∧ hasScrapableExt entry ∧ ¬ ignoredPath entry
          ∧ readFile drive entry = Some text ∧ uri ∈ occurrences text)
       ∨ (∃ entry, entry ∈ entries ∧ stat drive (js "/" ++ entry) = Some (Some uri)))
  ∧ (listFails (world key) → Index.crawl world key q = q).
Proof.
  split; [apply index_crawl_add|]. split.
  - intros drive entries uri Hd Hl. unfold indexLinksOf, indexLinks. rewrite Hd, Hl.
    rewrite elem_of_app, elem_of_scraped, filterMounts_mountKeys, elem_of_mountKeys.
    apply or_iff_compat_r. split.
    + intros (entry & text & He & Hr & Hu).
      apply filterScrapable_elem in He as (? & ? & ?).
      exists entry, text. unfold Index.scrapeHyperAddresses in Hu.
      rewrite matchG_scraper in Hu. done.
    + intros (entry & text & He & Hext & Hno & Hr & Hu). exists entry, text.
      split; [by apply filterScrapable_elem|].
      split; [done|]. unfold Index.scrapeHyperAddresses. by rewrite matchG_scraper.
  - intros Hfail. rewrite index_crawl_add, (listFails_index_links _ _ Hfail).
    apply index_add_nil.
Qed.

(** [index_crawl_queues] at the sample drive with three entries. *)
Lemma index_crawl_queues_witness :
  js "hyper://" ++ keyA ∈ indexLinksOf (λ _, Some mixedDrive) keyA.
Proof.
  apply (proj1 (proj2 (index_crawl_queues (λ _, Some mixedDrive) keyA Index.newCrawlQueue))
           mixedDrive [js "a.html"; js "b.bin"; js "node_modules/c.js"]
           (js "hyper://" ++ keyA) eq_refl eq_refl).
  left. exists (js "a.html"), (js "hyper://" ++ keyA).
  split; [left|]. split; [|split; [|split]].
  - exists (js ".html"). split; [left|]. exists (js "a"). reflexivity.
  - intros H. apply matches_IGNORED_DIRS in H. vm_compute in H. discriminate H.
  - reflexivity.
  - apply elem_of_occurrences. exists 0. split; vm_compute; reflexivity.
Defined.

(** X10: in the daemon client [crawlHyper] comes to one [addQueue] of the
    strings that the drive yields, after which the key is recorded as
    crawled; the strings are the addresses in every file of the listing
    that ends in a scrapable extension and can be read, wherever the file
    lies. A drive that cannot be got or listed yields none, and its key is
    recorded all the same. *)
Theorem cli_crawlHyper_queues client key m :
  Cli.crawlHyper client key m
  = {| Cli.crawled := {[key]} ∪ Cli.crawled m;
       Cli.queue := Cli.queue (Cli.addQueue m (cliLinksOf client key)).2 |}
  ∧ (∀ drive all uri,
       Cli.driveGet client key = Some drive → readdirRecursive drive = Some all →
       uri ∈ cliLinksOf client key ↔
       ∃ entry text,
         entry ∈ all ∧ hasScrapableExt entry
         ∧ readFile drive entry = Some text ∧ uri ∈ occurrences text)
  ∧ (listFails (Cli.driveGet client key) →
     Cli.crawlHyper client key m
     = {| Cli.crawled := {[key]} ∪ Cli.crawled m; Cli.queue := Cli.queue m |}).
Proof.
  split; [|split].
  - rewrite cli_crawlHyper_add.
    by destruct (cli_addQueue_spec m (cliLinksOf client key)) as (new & -> & _).
  - intros drive all uri Hd Hl. unfold cliLinksOf, cliLinks. rewrite Hd, Hl.
    rewrite elem_of_scraped. split.
    + intros (entry & text & He & Hr & Hu).
      apply list_elem_of_In, filter_In in He as [He Hext].
      exists entry, text. split; [by apply list_elem_of_In|].
      split; [by apply matches_SCRAPABLE_EXTS|]. split; [done|].
      unfold Cli.scrapeURIs in Hu. by rewrite matchG_scraper in Hu.
    + intros (entry & text & He & Hext & Hr & Hu). exists entry, text.
      split; [|split; [done|]].
      * apply list_elem_of_In, filter_In. split; [by apply list_elem_of_In|].
        by apply matches_SCRAPABLE_EXTS.
      * unfold Cli.scrapeURIs. by rewrite matchG_scraper.
  - intros Hfail. rewrite cli_crawlHyper_add, (listFails_cli_links _ _ Hfail).
    by rewrite cli_addQueue_nil.
Qed.

(** [cli_crawlHyper_queues] at the sample drive with three entries: the
    file under [node_modules] is read. *)
Lemma cli_crawlHyper_queues_witness :
  js "hyper://" ++ keyB ∈ cliLinksOf (clientOf noPages {[keyA := mixedDrive]}) keyA.
Proof.
  apply (proj1 (proj2 (cli_crawlHyper_queues
                         (clientOf noPages {[keyA := mixedDrive]}) keyA Cli.emptyMemory))
           mixedDrive [js "a.html"; js "b.bin"; js "node_modules/c.js"]
           (js "hyper://" ++ keyB)).
  - apply lookup_singleton_eq.
  - reflexivity.
  - exists (js "node_modules/c.js"), (js "hyper://" ++ keyB).
    split; [do 2 right; left|]. split; [|split].
    + exists (js ".js"). split; [do 5 right; left|].
      exists (js "node_modules/c"). reflexivity.
    + reflexivity.
    + apply elem_of_occurrences. exists 0. split; vm_compute; reflexivity.
Defined.

(** ** [extractKey] and the scraper together *)

Lemma isKey_length key : isKey key = true → length key = 64.
Proof. unfold isKey. intros [H _]%andb_prop. by apply Nat.eqb_eq. Qed.

Lemma isKey_not_hyper key tail :
  isKey key = true → bool_decide (take 6 (key ++ tail) = js "hyper:") = false.
Proof.
  intros Hk. apply bool_decide_eq_false_2. intros Heq.
  destruct key as [|x key]; [done|].
  apply isKey_head_hex in Hk. injection Heq as -> _. done.
Qed.

(** X11: [extractKey] reads the first 72 code units of its argument and no
    more: [hyper://] and a key, or a bare key, yield the key whatever
    follows; what it returns it returns again when applied to it; and a
    string of fewer than 64 code units yields [null]. *)
Theorem extractKey_reads_a_prefix :
  (∀ uri, extractKey uri = extractKey (take 72 uri))
  ∧ (∀ key tail,
       isKey key = true →
       extractKey (js "hyper://" ++ key ++ tail) = Some key
       ∧ extractKey (key ++ tail) = Some key)
  ∧ (∀ uri key, extractKey uri = Some key → extractKey key = Some key)
  ∧ (∀ uri, length uri < 64 → extractKey uri = None).
Proof.
  split; [|split; [|split]].
  - intros uri. rewrite !extractKey_unfold. cbv zeta.
    rewrite !take_take. change (6 `min` 72) with 6. change (64 `min` 72) with 64.
    assert (H : drop 8 (take 72 uri) = take 64 (drop 8 uri))
      by (symmetry; apply (take_drop_commute uri 64 8)).
    rewrite H, take_take. done.
  - intros key tail Hk. pose proof (isKey_length _ Hk) as Hl. split.
    + rewrite extractKey_unfold. cbv zeta.
      change (take 6 (js "hyper://" ++ key ++ tail)) with (js "hyper:").
      rewrite bool_decide_eq_true_2 by done.
      change (drop 8 (js "hyper://" ++ key ++ tail)) with (key ++ tail).
      rewrite <- Hl, take_app_length. by rewrite Hk.
    + rewrite extractKey_unfold. cbv zeta. rewrite (isKey_not_hyper _ _ Hk).
      rewrite <- Hl, take_app_length. by rewrite Hk.
  - intros uri key He. by apply extractKey_of_key, (extractKey_isKey uri).
  - intros uri Hlen. rewrite extractKey_unfold. cbv zeta.
    assert (Hno : ∀ s : Str, length s < 64 → isKey s = false).
    { intros s Hs. unfold isKey. destruct (Nat.eqb_spec (length s) 64); [lia | done]. }
    destruct (bool_decide _); rewrite Hno; try done.
    + rewrite length_take, length_drop. lia.
    + rewrite length_take. lia.
Qed.

(** [extractKey_reads_a_prefix] at the address of the working directory. *)
Lemma extractKey_reads_a_prefix_witness :
  extractKey (js "hyper://" ++ keyA ++ js "/index.html") = Some keyA
  ∧ extractKey (js "short") = None.
Proof.
  split.
  - apply (proj1 (proj2 extractKey_reads_a_prefix)). vm_compute. reflexivity.
  - apply (proj2 (proj2 (proj2 extractKey_reads_a_prefix))). vm_compute. lia.
Defined.

Lemma occurrence_is_address text uri :
  uri ∈ occurrences text →
  ∃ key, uri = js "hyper://" ++ key ∧ isKey key = true ∧ extractKey uri = Some key.
Proof.
  intros (i & Hat & ->)%elem_of_occurrences. unfold addressAt, isAddress in Hat.
  apply andb_prop in Hat as [Hp Hk]. apply bool_decide_eq_true in Hp.
  set (s := take 72 (drop i text)) in *.
  assert (Hs : s = js "hyper://" ++ drop 8 s).
  { rewrite <- Hp at 1. symmetry. apply take_drop. }
  exists (drop 8 s). split; [done|]. split; [done|].
  rewrite Hs at 1. by apply extractKey_of_address.
Qed.

(** X12: every string that the scraper of either program returns is
    [hyper://] followed by a key, and [extractKey] yields that key; so [add]
    passes over no scraped address for being invalid. *)
Theorem scraped_addresses_are_keys text uri :
  uri ∈ Index.scrapeHyperAddresses text ∨ uri ∈ Cli.scrapeURIs text →
  ∃ key, uri = js "hyper://" ++ key ∧ isKey key = true ∧ extractKey uri = Some key.
Proof.
  unfold Index.scrapeHyperAddresses, Cli.scrapeURIs. rewrite matchG_scraper.
  intros [H|H]; by apply occurrence_is_address in H.
Qed.

(** [scraped_addresses_are_keys] at a text with one address. *)
Lemma scraped_addresses_are_keys_witness :
  ∃ key, js "hyper://" ++ keyA = js "hyper://" ++ key ∧ isKey key = true
         ∧ extractKey (js "hyper://" ++ keyA) = Some key.
Proof.
  apply (scraped_addresses_are_keys (js "see hyper://" ++ keyA ++ js " ")).
  left. vm_compute. left.
Defined.

(** ** The count of mounted drives *)

Lemma index_exhaust_mounted world options indexDrive indexMounts fuel :
  ∀ q mounted keys qn m,
    Index.exhaust fuel world options indexDrive indexMounts q mounted
      = Some (keys, qn, m) →
    mounted ≤ m ≤ mounted + length keys
    ∧ (Index.mount options = false → m = mounted).
Proof.
  induction fuel as [|fuel IH]; intros q mounted keys qn m Hrun; [done|].
  rewrite index_exhaust_S in Hrun.
  destruct (Index.next q) as [[key q1]|] eqn:Hnext.
  2:{ injection Hrun as <- <- <-. simpl. split; [lia | done]. }
  destruct (Index.exhaust fuel _ _ _ _ _ _) as [[[keys' qn'] m']|] eqn:Hrest; [|done].
  injection Hrun as <- <- <-. apply IH in Hrest as [Hle Hoff].
  unfold Index.mountStep in *. cbn [length].
  destruct (Index.mount options); cbn [andb] in *.
  - split; [|done].
    destruct (negb _); [destruct (mountDrive _ _ _)|]; lia.
  - split; [lia|]. intros _. by apply Hoff.
Qed.

(** X13: the number that [pleco] reports as mounted is at most the number
    of keys it has crawled, and it is 0 when the option [mount] is off. *)
Theorem mounted_counts fuel world cwd options keys q mounted :
  Index.pleco fuel world cwd options = Some (Index.Finished keys q mounted) →
  mounted ≤ length keys ∧ (Index.mount options = false → mounted = 0).
Proof.
  unfold Index.pleco. destruct (Index.version options); [done|].
  destruct (world cwd) as [indexDrive|]; [|done].
  destruct (readdir indexDrive) as [top|]; [|done]. cbv zeta.
  destruct (Index.exhaust _ _ _ _ _ _ _) as [[[keys' q'] m']|] eqn:Hrun; [|done].
  intros [= <- <- <-]. apply index_exhaust_mounted in Hrun as [Hle Hoff].
  split; [lia | exact Hoff].
Qed.

(** [mounted_counts] at the cycle of the two sample drives. *)
Lemma mounted_counts_witness : ∃ mounted, mounted ≤ 2 ∧ mounted = 0.
Proof.
  destruct cycle_index_run as (fuel & q & m & Hrun). exists m.
  destruct (mounted_counts _ _ _ _ _ _ _ Hrun) as [Hle Hoff].
  split; [exact Hle | exact (Hoff eq_refl)].
Defined.

(** ** The queue and the crawled set between the steps *)

(** X14: in [index.js] the queue never holds a key twice and never holds
    a crawled key: this is so for a new queue and stays so through [add],
    through a turn of the iterator and through the crawl of a drive; the
    key that the iterator yields was not crawled before and is no longer
    queued; and no key is crawled twice in a run. *)
Theorem index_frontier_invariant :
  indexInv Index.newCrawlQueue
  ∧ (∀ q uriList, indexInv q → indexInv (Index.add q uriList).2)
  ∧ (∀ q key q1,
       indexInv q → Index.next q = Some (key, q1) →
       indexInv q1 ∧ (key ∉ Index.crawlSet q) ∧ (key ∉ Index.queue q1))
  ∧ (∀ world key q, indexInv q → indexInv (Index.crawl world key q))
  ∧ (∀ world options indexDrive indexMounts fuel q mounted keys qn m,
       indexInv q →
       Index.exhaust fuel world options indexDrive indexMounts q mounted
         = Some (keys, qn, m) →
       indexInv qn ∧ NoDup keys ∧ ∀ k, k ∈ keys → k ∉ Index.crawlSet q).
Proof.
  split; [apply indexInv_new|]. split; [apply indexInv_add|].
  split; [apply indexInv_next|]. split; [apply indexInv_crawl|].
  intros world options indexDrive indexMounts fuel q mounted keys qn m Hinv Hrun.
  apply index_exhaust_sound in Hrun as (_ & Hinvn & Hnd & Hdis & _); done.
Qed.

(** [index_frontier_invariant] at a new queue. *)
Lemma index_frontier_invariant_witness :
  indexInv (Index.add Index.newCrawlQueue [keyA; keyA]).2.
Proof.
  apply (proj1 (proj2 index_frontier_invariant)).
  apply (proj1 index_frontier_invariant).
Defined.

Lemma cli_crawlHyper_NoDup client key m :
  NoDup (Cli.queue m) → NoDup (Cli.queue (Cli.crawlHyper client key m)).
Proof.
  intros Hnd. destruct (cli_crawlHyper_spec client key m) as (new & -> & Hadds).
  cbn [Cli.queue]. by eapply addsTo_NoDup.
Qed.

(** X15: in the daemon client the queue never holds a key twice, also
    where [exhaustInput] throws. After
    [crawlHyper] of a key that is not queued, started where no queued key
    was crawled, a key that is both queued and crawled can only be the key
    just crawled, and only if the scrapable files of its own drive name
    it. *)
Theorem cli_frontier_invariant :
  (∀ m uriList, NoDup (Cli.queue m) → NoDup (Cli.queue (Cli.addQueue m uriList).2))
  ∧ (∀ client key m,
       NoDup (Cli.queue m) → NoDup (Cli.queue (Cli.crawlHyper client key m)))
  ∧ (∀ client argv,
       NoDup (Cli.queue (Cli.memoryOf (Cli.exhaustInput client argv Cli.emptyMemory))))
  ∧ (∀ client key m k,
       (∀ k', k' ∈ Cli.queue m → k' ∉ Cli.crawled m) →
       key ∉ Cli.queue m →
       k ∈ Cli.queue (Cli.crawlHyper client key m) →
       k ∈ Cli.crawled (Cli.crawlHyper client key m) →
       k = key ∧ key ∈ keysOf (cliLinksOf client key)).
Proof.
  split; [apply cli_addQueue_NoDup|]. split; [apply cli_crawlHyper_NoDup|].
  split; [intros; apply cli_exhaustInput_NoDup; constructor|].
  intros client key m k Hdis Hkey.
  destruct (cli_crawlHyper_spec client key m) as (new & -> & Hadds).
  cbn [Cli.queue Cli.crawled]. intros Hq Hc.
  apply elem_of_union in Hc as [Hc|Hc].
  - apply elem_of_singleton in Hc as ->. split; [done|].
    apply elem_of_app in Hq as [Hq|Hq].
    + done.
    + by apply (addsTo_elem_of _ _ _ _ key Hadds) in Hq as (? & _).
  - exfalso. apply elem_of_app in Hq as [Hq|Hq].
    + by apply (Hdis k).
    + by apply (addsTo_elem_of _ _ _ _ k Hadds) in Hq as (_ & _ & ?).
Qed.

(** [cli_frontier_invariant] at the drive that names itself. *)
Lemma cli_frontier_invariant_witness :
  keyA = keyA ∧ keyA ∈ keysOf (cliLinksOf (clientOf noPages selfGraph) keyA).
Proof.
  apply (proj2 (proj2 (proj2 cli_frontier_invariant))
           (clientOf noPages selfGraph) keyA Cli.emptyMemory keyA).
  - intros k' Hk'. by apply elem_of_nil in Hk'.
  - apply not_elem_of_nil.
  - replace (Cli.queue (Cli.crawlHyper (clientOf noPages selfGraph) keyA Cli.emptyMemory))
      with [keyA] by (vm_compute; reflexivity).
    left.
  - eapply bool_decide_eq_true_1. vm_compute. reflexivity.
Defined.

